(** * A ray tracer over spheres: embedding of [rayTracing.js] and its properties

    The JavaScript numbers of the program are read as real numbers (the data
    model of the renderer is a triple of real-valued components), so the
    arithmetic is the one of [R]: [Math.sqrt] is [sqrt], [Math.min] and
    [Math.max] are [Rmin] and [Rmax], [Math.acos] is [acos], [Math.pow x 7]
    is [x ^ 7].  The only non-real number the program writes down is the
    literal [Infinity] of the nearest-hit search; it is kept as a separate
    constructor of [Num].  Rounding, NaN and overflow are outside this
    reading.

    Where rounding decides what the program returns, the module [Double]
    has the intersection routine over binary64 numbers, operation for
    operation, so that it can be run on a given input. *)

From Stdlib Require Import Reals Lra Lia ZArith List Bool.
From Stdlib Require Floats.PrimFloat.
From Equations Require Import Equations.
Import ListNotations.

Open Scope R_scope.

(** ** Numbers and comparisons *)

(** [a < b] as the boolean test of an [if]. *)
Definition ltb (a b : R) : bool := if Rlt_dec a b then true else false.

(** A number that may be the literal [Infinity]. *)
Inductive Num : Type :=
| Fin (r : R)
| Infinity.

(** [a < b] where [a] is real and [b] may be [Infinity]. *)
Definition lt_num (a : R) (b : Num) : bool :=
  match b with
  | Fin r => ltb a r
  | Infinity => true
  end.

(** [a < b] where [a] may be [Infinity] and [b] is real. *)
Definition num_lt (a : Num) (b : R) : bool :=
  match a with
  | Fin r => ltb r b
  | Infinity => false
  end.

(** [Math.atan2 y x] on real arguments. *)
Definition atan2 (y x : R) : R :=
  if Rlt_dec 0 x then atan (y / x)
  else if Rlt_dec x 0 then
         (if Rle_dec 0 y then atan (y / x) + PI else atan (y / x) - PI)
  else if Rlt_dec 0 y then PI / 2
  else if Rlt_dec y 0 then - (PI / 2)
  else 0.

(** ** class Vec3 *)

Module Vec3.

Record t : Type := mk { x : R; y : R; z : R }.

Definition scale (this : t) (scalar : R) : t :=
  mk (x this * scalar) (y this * scalar) (z this * scalar).

Definition dot (this other : t) : R :=
  x this * x other + y this * y other + z this * z other.

Definition normalised (this : t) : t :=
  let length := sqrt (x this ^ 2 + y this ^ 2 + z this ^ 2) in
  mk (x this / length) (y this / length) (z this / length).

Definition subtract (this other : t) : t :=
  mk (x this - x other) (y this - y other) (z this - z other).

Definition add (this other : t) : t :=
  mk (x this + x other) (y this + y other) (z this + z other).

End Vec3.

(** ** class Ray *)

Module Ray.

Record t : Type := mk { origin : Vec3.t; direction : Vec3.t }.

Definition pointAt (this : t) (t0 : R) : Vec3.t :=
  Vec3.mk
    (Vec3.x (origin this) + t0 * Vec3.x (direction this))
    (Vec3.y (origin this) + t0 * Vec3.y (direction this))
    (Vec3.z (origin this) + t0 * Vec3.z (direction this)).

End Ray.

(** ** class Sphere *)

Module Sphere.

Record t : Type := mk { center : Vec3.t; radius : R; color : Vec3.t }.

Definition rayIntersects (this : t) (ray : Ray.t) : R :=
  let oc := Vec3.subtract (Ray.origin ray) (center this) in
  let a := Vec3.dot (Ray.direction ray) (Ray.direction ray) in
  let b := 2 * Vec3.dot oc (Ray.direction ray) in
  let c := Vec3.dot oc oc - radius this * radius this in
  let discriminant := b * b - 4 * a * c in
  if ltb 0 discriminant then
    let t1 := (- b - sqrt discriminant) / (2 * a) in
    let t2 := (- b + sqrt discriminant) / (2 * a) in
    Rmin t1 t2
  else -1.

End Sphere.

(** ** The intersection routine over binary64 numbers *)

(** [Vec3.subtract], [Vec3.dot], [Vec3.scale] and
    [Sphere.rayIntersects] once more, on the numbers JavaScript computes
    with: [+], [-], [*], [/] and [Math.sqrt] are the correctly rounded
    IEEE 754 operations, a comparison with NaN is false. *)
Module Double.

Import PrimFloat.
#[local] Set Warnings "-inexact-float".
Local Open Scope float_scope.

Record Vec3 : Type := mkVec3 { x : float; y : float; z : float }.

Record Ray : Type := mkRay { origin : Vec3; direction : Vec3 }.

Record Sphere : Type := mkSphere { center : Vec3; radius : float }.

Definition scale (this : Vec3) (scalar : float) : Vec3 :=
  mkVec3 (x this * scalar) (y this * scalar) (z this * scalar).

Definition dot (this other : Vec3) : float :=
  x this * x other + y this * y other + z this * z other.

Definition subtract (this other : Vec3) : Vec3 :=
  mkVec3 (x this - x other) (y this - y other) (z this - z other).

(** [Math.min] of two numbers: NaN if one is NaN, and [-0] below [+0]. *)
Definition Math_min (a b : float) : float :=
  if orb (is_nan a) (is_nan b) then nan
  else if a <? b then a
  else if b <? a then b
  else if get_sign a then a else b.

Definition rayIntersects (this : Sphere) (ray : Ray) : float :=
  let oc := subtract (origin ray) (center this) in
  let a := dot (direction ray) (direction ray) in
  let b := 2 * dot oc (direction ray) in
  let c := dot oc oc - radius this * radius this in
  let discriminant := b * b - 4 * a * c in
  if 0 <? discriminant then
    let t1 := (- b - sqrt discriminant) / (2 * a) in
    let t2 := (- b + sqrt discriminant) / (2 * a) in
    Math_min t1 t2
  else -1.

(** A sphere of radius [1e-6] at distance [1000] straight ahead, and
    the ray from [(0, 0, 0)] with the unit direction towards its
    centre. *)
Definition tinySphere : Sphere := mkSphere (mkVec3 0 0 (-1000)) 1e-6.

Definition tinyRay : Ray := mkRay (mkVec3 0 0 0) (mkVec3 0 0 (-1)).

(** A sphere of radius [10] far ahead (at [z = -2^30]) and a ray
    parallel to the axis at distance [11] from it: all whole numbers. *)
Definition distantSphere : Sphere := mkSphere (mkVec3 0 0 (-1073741824)) 10.

Definition besideRay : Ray := mkRay (mkVec3 11 0 0) (mkVec3 0 0 (-1)).

End Double.

(** ** Exceptions and loops *)

(** A property read or a method call on [undefined] or [null] throws; a
    computation that may throw returns [option], [None] being the throw. *)
Definition bind {A B : Type} (m : option A) (k : A -> option B) : option B :=
  match m with
  | Some a => k a
  | None => None
  end.

Notation "x <- m ;; k" := (bind m (fun x => k))
  (at level 61, m at next level, right associativity).

(** [l[i]]: [undefined] out of range. *)
Definition index {A : Type} (l : list A) (i : Z) : option A :=
  if (i <? 0)%Z then None else nth_error l (Z.to_nat i).

(** The real number held by a [Num]; arithmetic on [Infinity] is not
    part of the model. *)
Definition finite (n : Num) : option R :=
  match n with
  | Fin r => Some r
  | Infinity => None
  end.

(** [for (let i = i0; i < bound; i++) acc = body(i, acc)], the body
    possibly throwing. *)
Equations for_loop {A : Type} (i bound : Z) (body : Z -> A -> option A)
  (acc : A) : option A by wf (Z.to_nat (bound - i)) lt :=
for_loop i bound body acc with Z_lt_dec i bound := {
  | left _ with body i acc := {
    | Some acc' => for_loop (i + 1) bound body acc'
    | None => None }
  | right _ => Some acc }.
Next Obligation. lia. Qed.

(** ** The scene, the nearest-hit search and the shader *)

(** The object returned by [traceRay]: [{ t: -1 }] has no [sphereIndex]
    and no [normal]. *)
Record CastResult : Type := mkCast {
  t : Num;
  sphereIndex : option Z;
  normal : option Vec3.t
}.

(** The three variables of the loop of [traceRay]; [null] is [None]. *)
Record TraceState : Type := mkState {
  st_t : Num;
  closestSphereIndex : Z;
  closestNormal : option Vec3.t
}.

(** What the canvas receives for one pixel: the position given to
    [fillRect] and the three numbers written into [fillStyle]. *)
Record Paint : Type := mkPaint {
  px : Z;
  py : Z;
  red : R;
  green : R;
  blue : R
}.

Definition skyColor : Vec3.t := Vec3.mk 0.5 0.9 1.0.
Definition groundColor : Vec3.t := Vec3.mk 0.3 0.3 0.5.

Definition backgroundColour (ray : Ray.t) : Vec3.t :=
  let dir := Vec3.normalised (Ray.direction ray) in
  let phi := atan2 (Vec3.x dir) (Vec3.z dir) in
  let theta := acos (Vec3.y dir) in
  let u := (phi + PI) / (2 * PI) in
  let v := theta / PI in
  Vec3.add (Vec3.scale skyColor (1 - v)) (Vec3.scale groundColor v).

Section Scene.

(** The two globals of the program, [spheres] and [lightDirection]. *)
Variable spheres : list Sphere.t.
Variable lightDirection : Vec3.t.

Definition negLightDirection : Vec3.t :=
  Vec3.mk (- Vec3.x lightDirection) (- Vec3.y lightDirection)
          (- Vec3.z lightDirection).

Definition diffuseLighting (normal : Vec3.t) : R :=
  Rmax (Vec3.dot normal negLightDirection) 0.

Definition specularLighting (normal viewDirection : Vec3.t) : R :=
  let reflection :=
    Vec3.subtract
      (Vec3.scale normal (2 * Vec3.dot normal lightDirection))
      lightDirection in
  let specular := Rmax (Vec3.dot reflection viewDirection) 0 in
  specular ^ 7 * 0.8.

(** One iteration of the loop of [traceRay], for sphere [sphere] at
    index [i]. *)
Definition traceStep (ray : Ray.t) (i : Z) (sphere : Sphere.t)
  (st : TraceState) : TraceState :=
  let tIntersection := Sphere.rayIntersects sphere ray in
  if ltb 0 tIntersection && lt_num tIntersection (st_t st) then
    let hitPoint := Ray.pointAt ray tIntersection in
    let normal := Vec3.normalised (Vec3.subtract hitPoint (Sphere.center sphere)) in
    mkState (Fin tIntersection) i (Some normal)
  else st.

(** The loop over the spheres that are left, from index [i] on. *)
Fixpoint traceLoop (ray : Ray.t) (rest : list Sphere.t) (i : Z)
  (st : TraceState) : TraceState :=
  match rest with
  | [] => st
  | sphere :: rest' => traceLoop ray rest' (i + 1) (traceStep ray i sphere st)
  end.

Definition traceRay (ray : Ray.t) : CastResult :=
  let st := traceLoop ray spheres 0 (mkState Infinity (-1) None) in
  if (closestSphereIndex st <? 0)%Z then mkCast (Fin (-1)) None None
  else mkCast (st_t st) (Some (closestSphereIndex st)) (closestNormal st).

Definition rayColor (ray : Ray.t) : option Vec3.t :=
  let castResult := traceRay ray in
  if num_lt (t castResult) 0 then Some (backgroundColour ray)
  else
    i <- sphereIndex castResult ;;
    sphere <- index spheres i ;;
    let albedo := Sphere.color sphere in
    n <- normal castResult ;;
    let diffuse := diffuseLighting n in
    let color := Vec3.scale albedo diffuse in
    t0 <- finite (t castResult) ;;
    let viewDirection :=
      Vec3.normalised (Vec3.subtract (Ray.origin ray) (Ray.pointAt ray t0)) in
    let specular := specularLighting n viewDirection in
    let color := Vec3.add color (Vec3.scale albedo specular) in
    let shadowRay :=
      Ray.mk (Vec3.add (Ray.pointAt ray t0) (Vec3.scale n 0.01))
             negLightDirection in
    let shadowCastResult := traceRay shadowRay in
    let color :=
      if lt_num 0 (t shadowCastResult) then Vec3.scale color 0.4 else color in
    let color :=
      if (i =? 2)%Z then Vec3.scale color 1.2 else color in
    Some color.

(** The body of the two loops of [render], for the pixel [(x, y)]. *)
Definition renderPixel (width height x y : Z) : option Paint :=
  let viewportWidth := 2 in
  let viewportHeight := 2 in
  let focalLength := 1 in
  let origin := Vec3.mk 0 0 0 in
  let u := (IZR x / IZR width) * viewportWidth - viewportWidth / 2 in
  let v := (IZR y / IZR height) * viewportHeight - viewportHeight / 2 in
  let direction := Vec3.normalised (Vec3.mk u (- v) (- focalLength)) in
  let ray := Ray.mk origin direction in
  color <- rayColor ray ;;
  let r := Rmin 1 (Rmax 0 (Vec3.x color)) * 255 in
  let g := Rmin 1 (Rmax 0 (Vec3.y color)) * 255 in
  let b := Rmin 1 (Rmax 0 (Vec3.z color)) * 255 in
  Some (mkPaint x y r g b).

(** [render], for a canvas of the given size; the result is what was
    painted, in the order of the calls of [fillRect]. *)
Definition render (width height : Z) : option (list Paint) :=
  for_loop 0 height
    (fun y painted =>
       for_loop 0 width
         (fun x painted =>
            p <- renderPixel width height x y ;; Some (painted ++ [p]))
         painted)
    [].

End Scene.

(** The scene of the program. *)
Definition spheres : list Sphere.t :=
  [ Sphere.mk (Vec3.mk 0 0.3 (-3.5)) 1 (Vec3.mk 1 0 0);
    Sphere.mk (Vec3.mk 0 1 (-2.8)) 0.5 (Vec3.mk 0 0 1);
    Sphere.mk (Vec3.mk 0 (-14) (-5)) 13 (Vec3.mk (58 / 255) (240 / 255) (46 / 255)) ].

Definition lightDirection : Vec3.t :=
  Vec3.normalised (Vec3.mk (-1.1) (-1.3) (-1.5)).

(** * The vocabulary of the statements *)

(** ** The quadratic of a ray and a sphere *)

(** The discriminant of the quadratic, written out from the ray and
    the sphere. *)
Definition quad_a (ray : Ray.t) : R :=
  Vec3.dot (Ray.direction ray) (Ray.direction ray).

Definition quad_b (s : Sphere.t) (ray : Ray.t) : R :=
  2 * Vec3.dot (Vec3.subtract (Ray.origin ray) (Sphere.center s))
               (Ray.direction ray).

Definition quad_c (s : Sphere.t) (ray : Ray.t) : R :=
  Vec3.dot (Vec3.subtract (Ray.origin ray) (Sphere.center s))
           (Vec3.subtract (Ray.origin ray) (Sphere.center s))
  - Sphere.radius s * Sphere.radius s.

Definition quad_D (s : Sphere.t) (ray : Ray.t) : R :=
  quad_b s ray * quad_b s ray - 4 * quad_a ray * quad_c s ray.

(** ** The nearest-hit search *)

(** The value of [rayIntersects] for the ray, and the normal the loop
    stores for a sphere it keeps. *)
Definition hit_t (ray : Ray.t) (s : Sphere.t) : R := Sphere.rayIntersects s ray.

Definition hit_normal (ray : Ray.t) (s : Sphere.t) : Vec3.t :=
  Vec3.normalised
    (Vec3.subtract (Ray.pointAt ray (hit_t ray s)) (Sphere.center s)).

(** The state of the loop after the spheres [seen]: either nothing was
    kept, or the sphere at index [k] was, and it is the first of the
    spheres of [seen] with the least positive value. *)
Inductive nearest (ray : Ray.t) (seen : list Sphere.t) : TraceState -> Prop :=
| nearest_none :
    (forall s, In s seen -> hit_t ray s <= 0) ->
    nearest ray seen (mkState Infinity (-1) None)
| nearest_some (k : nat) (sb : Sphere.t) :
    nth_error seen k = Some sb ->
    0 < hit_t ray sb ->
    (forall j s, nth_error seen j = Some s -> 0 < hit_t ray s ->
                 hit_t ray sb <= hit_t ray s) ->
    (forall j s, nth_error seen j = Some s -> (j < k)%nat -> 0 < hit_t ray s ->
                 hit_t ray sb < hit_t ray s) ->
    nearest ray seen (mkState (Fin (hit_t ray sb)) (Z.of_nat k) (Some (hit_normal ray sb))).

(** ** The frame *)

(** The values [i, i + 1, ...] of a loop counter, [m] of them. *)
Fixpoint zrange (i : Z) (m : nat) : list Z :=
  match m with
  | O => []
  | S m' => i :: zrange (i + 1) m'
  end.

(** The pixel painted at [(x, y)]. *)
Definition paintAt (scene : list Sphere.t) (light : Vec3.t)
  (width height x y : Z) : Paint :=
  match renderPixel scene light width height x y with
  | Some p => p
  | None => mkPaint x y 0 0 0
  end.

(** The row [y] of the frame, and the frame: rows in order, each row in
    the order of [x]. *)
Definition paintedRow (scene : list Sphere.t) (light : Vec3.t)
  (width height y : Z) : list Paint :=
  concat (map (fun x => [paintAt scene light width height x y])
              (zrange 0 (Z.to_nat width))).

Definition paintedFrame (scene : list Sphere.t) (light : Vec3.t)
  (width height : Z) : list Paint :=
  concat (map (paintedRow scene light width height)
              (zrange 0 (Z.to_nat height))).

(** ** Rays and spheres of the examples *)

(** The three spheres of the scene, by colour. *)
Definition redSphere : Sphere.t :=
  Sphere.mk (Vec3.mk 0 0.3 (-3.5)) 1 (Vec3.mk 1 0 0).

Definition blueSphere : Sphere.t :=
  Sphere.mk (Vec3.mk 0 1 (-2.8)) 0.5 (Vec3.mk 0 0 1).

Definition groundSphere : Sphere.t :=
  Sphere.mk (Vec3.mk 0 (-14) (-5)) 13
            (Vec3.mk (58 / 255) (240 / 255) (46 / 255)).

(** Rays from the camera, straight up and straight down. *)
Definition upRay : Ray.t := Ray.mk (Vec3.mk 0 0 0) (Vec3.mk 0 1 0).

Definition downRay : Ray.t := Ray.mk (Vec3.mk 0 0 0) (Vec3.mk 0 (-1) 0).

(** A ray straight down that passes beside the three spheres. *)
Definition asideDownRay : Ray.t :=
  Ray.mk (Vec3.mk 100 0 0) (Vec3.mk 0 (-1) 0).

(** The camera ray of the pixel [(0, 1)] of a frame of width [2] and
    height [2], as [render] builds it. *)
Definition leftRay : Ray.t :=
  Ray.mk (Vec3.mk 0 0 0)
    (Vec3.normalised
       (Vec3.mk (IZR 0 / IZR 2 * 2 - 2 / 2)
                (- (IZR 1 / IZR 2 * 2 - 2 / 2))
                (- (1)))).

(** A sphere put twice in a scene, and a ray that hits it. *)
Definition twinSphere : Sphere.t :=
  Sphere.mk (Vec3.mk 0 0 (-3)) 1 (Vec3.mk 1 1 1).

Definition forwardRay : Ray.t := Ray.mk (Vec3.mk 0 0 0) (Vec3.mk 0 0 (-1)).

(** A sphere at distance [5] and the ray from the camera aimed at its
    centre. *)
Definition farSphere : Sphere.t :=
  Sphere.mk (Vec3.mk 0 0 (-5)) 1 (Vec3.mk 1 1 1).

Definition aimedRay : Ray.t :=
  Ray.mk (Vec3.mk 0 0 0)
         (Vec3.normalised
            (Vec3.subtract (Sphere.center farSphere) (Vec3.mk 0 0 0))).

(** The unit sphere at the origin of the coordinates and a ray onto it
    from above. *)
Definition unitSphere : Sphere.t :=
  Sphere.mk (Vec3.mk 0 0 0) 1 (Vec3.mk 0.2 0.4 0.6).

Definition topRay : Ray.t := Ray.mk (Vec3.mk 0 5 0) (Vec3.mk 0 (-1) 0).

(** An oblique hit on the unit sphere: a ray that comes down beside
    the axis, a unit light from the side and above, a sphere in the way
    of that light, and two scenes. *)
Definition obliqueRay : Ray.t := Ray.mk (Vec3.mk 0.6 5 0) (Vec3.mk 0 (-1) 0).

Definition slantLight : Vec3.t := Vec3.mk 0.6 (-0.8) 0.

Definition slantOccluder : Sphere.t :=
  Sphere.mk (Vec3.mk (-2.394) 4.808 0) 1 (Vec3.mk 1 1 1).

Definition slantScene : list Sphere.t :=
  [slantOccluder; slantOccluder; unitSphere].

Definition soloScene : list Sphere.t := [unitSphere].

(** A ray beside the three spheres of the program whose direction is
    not a unit vector. *)
Definition asideSlantRay : Ray.t :=
  Ray.mk (Vec3.mk 100 0 0) (Vec3.mk 0 (-3) 3).

(** The sphere of radius [10] at [z = -2^30] and the ray parallel to
    the axis at distance [11] from it: the inputs of
    [Double.distantSphere] and [Double.besideRay], as real numbers. *)
Definition distantSphere : Sphere.t :=
  Sphere.mk (Vec3.mk 0 0 (-1073741824)) 10 (Vec3.mk 1 1 1).

Definition besideRay : Ray.t := Ray.mk (Vec3.mk 11 0 0) (Vec3.mk 0 0 (-1)).

(** The sphere of radius [-1] at distance [5]. *)
Definition inverseSphere : Sphere.t :=
  Sphere.mk (Vec3.mk 0 0 (-5)) (-1) (Vec3.mk 1 1 1).

(** Two horizontal rays with different origins and directions. *)
Definition eastRay : Ray.t := Ray.mk (Vec3.mk 0 0 0) (Vec3.mk 1 0 0).

Definition southRay : Ray.t := Ray.mk (Vec3.mk 5 5 5) (Vec3.mk 0 0 1).

(** ** The camera *)

(** The ray [render] builds for the pixel [(x, y)]. *)
Definition cameraRay (width height x y : Z) : Ray.t :=
  Ray.mk (Vec3.mk 0 0 0)
    (Vec3.normalised
       (Vec3.mk (IZR x / IZR width * 2 - 2 / 2)
                (- (IZR y / IZR height * 2 - 2 / 2))
                (- (1)))).

(** * Properties *)

(** ** Comparisons *)

Lemma ltb_true (a b : R) : ltb a b = true <-> a < b.
Proof.
  unfold ltb. destruct (Rlt_dec a b); split; intros; try easy.
Qed.

Lemma ltb_false (a b : R) : ltb a b = false <-> b <= a.
Proof.
  unfold ltb. destruct (Rlt_dec a b); split; intros; try easy; lra.
Qed.

Lemma ltb_lt (a b : R) : a < b -> ltb a b = true.
Proof. apply ltb_true. Qed.

Lemma ltb_ge (a b : R) : b <= a -> ltb a b = false.
Proof. apply ltb_false. Qed.

(** ** Vectors *)

(** Unfolds the vector operations on explicit vectors, rays and spheres. *)
Ltac vec_simpl :=
  cbv beta iota zeta delta
    [Vec3.dot Vec3.subtract Vec3.add Vec3.scale Vec3.x Vec3.y Vec3.z
     Ray.origin Ray.direction Ray.pointAt
     Sphere.center Sphere.radius Sphere.color].

Lemma vec3_eq (a b c a' b' c' : R) :
  a = a' -> b = b' -> c = c' -> Vec3.mk a b c = Vec3.mk a' b' c'.
Proof. intros -> -> ->. reflexivity. Qed.

Lemma dot_self_nonneg (v : Vec3.t) : 0 <= Vec3.dot v v.
Proof. destruct v as [a b c]. unfold Vec3.dot. simpl. nra. Qed.

Lemma dot_self_zero (v : Vec3.t) :
  Vec3.dot v v = 0 -> v = Vec3.mk 0 0 0.
Proof.
  destruct v as [a b c]. unfold Vec3.dot. simpl. intros H.
  assert (a = 0) by nra. assert (b = 0) by nra. assert (c = 0) by nra.
  subst. reflexivity.
Qed.

Lemma dot_zero_r (v : Vec3.t) : Vec3.dot v (Vec3.mk 0 0 0) = 0.
Proof. unfold Vec3.dot. simpl. ring. Qed.

(** ** The intersection of a ray and a sphere *)

(** A positive discriminant needs a direction that is not the zero
    vector, so the division by [2 * a] is a division by a positive
    number. *)
Lemma quad_D_pos_a_pos (s : Sphere.t) (ray : Ray.t) :
  0 < quad_D s ray -> 0 < quad_a ray.
Proof.
  intros HD.
  destruct (Req_dec (quad_a ray) 0) as [Ha | Ha].
  - exfalso. unfold quad_D, quad_b in HD. unfold quad_a in Ha.
    rewrite (dot_self_zero _ Ha), dot_zero_r in HD.
    fold (quad_a ray) in HD. unfold quad_a in HD.
    rewrite Ha in HD. lra.
  - pose proof (dot_self_nonneg (Ray.direction ray)) as H.
    unfold quad_a in *. lra.
Qed.

Lemma rayIntersects_miss (s : Sphere.t) (ray : Ray.t) :
  quad_D s ray <= 0 -> Sphere.rayIntersects s ray = -1.
Proof.
  intros HD. unfold Sphere.rayIntersects.
  fold (quad_a ray). fold (quad_b s ray). fold (quad_c s ray).
  fold (quad_D s ray). cbv zeta.
  rewrite (ltb_ge _ _ HD). reflexivity.
Qed.

Lemma rayIntersects_hit (s : Sphere.t) (ray : Ray.t) :
  0 < quad_D s ray ->
  Sphere.rayIntersects s ray =
  (- quad_b s ray - sqrt (quad_D s ray)) / (2 * quad_a ray).
Proof.
  intros HD. pose proof (quad_D_pos_a_pos s ray HD) as Ha.
  unfold Sphere.rayIntersects.
  fold (quad_a ray). fold (quad_b s ray). fold (quad_c s ray).
  fold (quad_D s ray). cbv zeta.
  rewrite (ltb_lt _ _ HD).
  apply Rmin_left.
  pose proof (sqrt_pos (quad_D s ray)) as Hs.
  unfold Rdiv. apply Rmult_le_compat_r.
  - left. apply Rinv_0_lt_compat. lra.
  - lra.
Qed.

(** A sphere whose centre is not ahead of the origin gives no positive
    value. *)
Lemma rayIntersects_b_nonneg (s : Sphere.t) (ray : Ray.t) :
  0 <= quad_b s ray -> Sphere.rayIntersects s ray <= 0.
Proof.
  intros Hb. destruct (Rle_or_lt (quad_D s ray) 0) as [HD0 | HDpos].
  - rewrite (rayIntersects_miss s ray HD0). lra.
  - pose proof (quad_D_pos_a_pos s ray HDpos) as Ha.
    rewrite (rayIntersects_hit s ray HDpos).
    pose proof (sqrt_pos (quad_D s ray)) as Hs0.
    apply (Rmult_le_reg_r (2 * quad_a ray)); [lra |].
    unfold Rdiv. rewrite Rmult_assoc, Rinv_l by lra. lra.
Qed.

(** C1.  For every ray and sphere, with [a = dot(direction, direction)],
    [b = 2 * dot(origin - center, direction)],
    [c = dot(origin - center, origin - center) - radius * radius] and
    [D = b * b - 4 * a * c], [rayIntersects] returns [-1] when [D <= 0]
    and the smaller root [(- b - sqrt D) / (2 * a)] when [D > 0],
    whatever the sign of that root. *)
Theorem rayIntersects_quadratic (s : Sphere.t) (ray : Ray.t) :
  let oc := Vec3.subtract (Ray.origin ray) (Sphere.center s) in
  let a := Vec3.dot (Ray.direction ray) (Ray.direction ray) in
  let b := 2 * Vec3.dot oc (Ray.direction ray) in
  let c := Vec3.dot oc oc - Sphere.radius s * Sphere.radius s in
  let D := b * b - 4 * a * c in
  (D <= 0 -> Sphere.rayIntersects s ray = -1) /\
  (0 < D ->
   Sphere.rayIntersects s ray = (- b - sqrt D) / (2 * a) /\
   (- b - sqrt D) / (2 * a) <= (- b + sqrt D) / (2 * a)).
Proof.
  cbv zeta. split.
  - apply rayIntersects_miss.
  - intros HD. split.
    + apply (rayIntersects_hit s ray HD).
    + pose proof (quad_D_pos_a_pos s ray HD) as Ha. unfold quad_a in Ha.
      pose proof (sqrt_pos (quad_D s ray)) as Hs. unfold quad_D, quad_b, quad_a, quad_c in Hs.
      unfold Rdiv. apply Rmult_le_compat_r.
      * left. apply Rinv_0_lt_compat. lra.
      * lra.
Qed.

(** ** The nearest-hit search *)

Section Nearest.

Variable ray : Ray.t.

Lemma nth_error_snoc_inv (seen : list Sphere.t) (s s' : Sphere.t) (j : nat) :
  nth_error (seen ++ [s]) j = Some s' ->
  (j < length seen)%nat /\ nth_error seen j = Some s' \/
  j = length seen /\ s' = s.
Proof.
  intros H. destruct (Nat.lt_ge_cases j (length seen)) as [Hlt | Hge].
  - left. split; [exact Hlt |]. rewrite nth_error_app1 in H; assumption.
  - right. rewrite nth_error_app2 in H by exact Hge.
    destruct (j - length seen)%nat as [| m] eqn:E.
    + simpl in H. inversion H. split; [lia | reflexivity].
    + simpl in H. destruct m; discriminate H.
Qed.

Lemma traceStep_nearest (seen : list Sphere.t) (s : Sphere.t) (st : TraceState) :
  nearest ray seen st ->
  nearest ray (seen ++ [s]) (traceStep ray (Z.of_nat (length seen)) s st).
Proof.
  intros Hst. unfold traceStep. fold (hit_t ray s). cbv zeta. fold (hit_normal ray s).
  assert (Hnew : nth_error (seen ++ [s]) (length seen) = Some s).
  { rewrite nth_error_app2 by lia. rewrite Nat.sub_diag. reflexivity. }
  destruct Hst as [Hall | k sb Hk Hpos Hmin Hfirst]; cbn [st_t lt_num].
  - (* nothing kept so far: [t] is [Infinity] *)
    rewrite andb_true_r.
    destruct (ltb 0 (hit_t ray s)) eqn:E.
    + apply ltb_true in E.
      apply nearest_some.
      * exact Hnew.
      * exact E.
      * intros j s' Hj Hs'. apply nth_error_snoc_inv in Hj.
        destruct Hj as [[_ Hj] | [_ ->]].
        -- apply nth_error_In in Hj. specialize (Hall _ Hj). lra.
        -- lra.
      * intros j s' Hj Hlt Hs'. apply nth_error_snoc_inv in Hj.
        destruct Hj as [[_ Hj] | [-> _]].
        -- apply nth_error_In in Hj. specialize (Hall _ Hj). lra.
        -- lia.
    + apply ltb_false in E. apply nearest_none.
      intros s' Hin. apply in_app_or in Hin. destruct Hin as [Hin | [<- | []]].
      * apply Hall, Hin.
      * exact E.
  - (* sphere [k] is kept so far *)
    destruct (ltb 0 (hit_t ray s) && ltb (hit_t ray s) (hit_t ray sb)) eqn:E.
    + apply andb_true_iff in E. destruct E as [E1 E2].
      apply ltb_true in E1. apply ltb_true in E2.
      apply nearest_some.
      * exact Hnew.
      * exact E1.
      * intros j s' Hj Hs'. apply nth_error_snoc_inv in Hj.
        destruct Hj as [[_ Hj] | [_ ->]].
        -- specialize (Hmin _ _ Hj Hs'). lra.
        -- lra.
      * intros j s' Hj Hlt Hs'. apply nth_error_snoc_inv in Hj.
        destruct Hj as [[_ Hj] | [-> _]].
        -- specialize (Hmin _ _ Hj Hs'). lra.
        -- lia.
    + apply andb_false_iff in E.
      assert (Hk' : (k < length seen)%nat).
      { apply nth_error_Some. rewrite Hk. discriminate. }
      apply nearest_some.
      * rewrite nth_error_app1 by exact Hk'. exact Hk.
      * exact Hpos.
      * intros j s' Hj Hs'. apply nth_error_snoc_inv in Hj.
        destruct Hj as [[_ Hj] | [_ ->]].
        -- apply (Hmin _ _ Hj Hs').
        -- destruct E as [E | E]; apply ltb_false in E; lra.
      * intros j s' Hj Hlt Hs'. apply nth_error_snoc_inv in Hj.
        destruct Hj as [[_ Hj] | [-> _]].
        -- apply (Hfirst _ _ Hj Hlt Hs').
        -- lia.
Qed.

Lemma traceLoop_nearest (rest seen : list Sphere.t) (st : TraceState) :
  nearest ray seen st ->
  nearest ray (seen ++ rest) (traceLoop ray rest (Z.of_nat (length seen)) st).
Proof.
  revert seen st. induction rest as [| s rest IH]; intros seen st Hst.
  - rewrite app_nil_r. exact Hst.
  - cbn [traceLoop].
    replace (Z.of_nat (length seen) + 1)%Z
      with (Z.of_nat (length (seen ++ [s]))).
    2:{ rewrite length_app. simpl. lia. }
    replace (seen ++ s :: rest) with ((seen ++ [s]) ++ rest).
    2:{ rewrite <- app_assoc. reflexivity. }
    apply IH. apply traceStep_nearest. exact Hst.
Qed.

(** The loop of [traceRay] over a whole scene. *)
Lemma traceLoop_scene (scene : list Sphere.t) :
  nearest ray scene (traceLoop ray scene 0 (mkState Infinity (-1) None)).
Proof.
  apply (traceLoop_nearest scene [] (mkState Infinity (-1) None)).
  apply nearest_none. intros s [].
Qed.

(** The two results of [traceRay]. *)
Lemma traceRay_cases (scene : list Sphere.t) :
  ((forall s, In s scene -> hit_t ray s <= 0) /\
   traceRay scene ray = mkCast (Fin (-1)) None None)
  \/
  (exists (k : nat) (sb : Sphere.t),
      nth_error scene k = Some sb /\
      0 < hit_t ray sb /\
      (forall j s, nth_error scene j = Some s -> 0 < hit_t ray s ->
                   hit_t ray sb <= hit_t ray s) /\
      (forall j s, nth_error scene j = Some s -> (j < k)%nat -> 0 < hit_t ray s ->
                   hit_t ray sb < hit_t ray s) /\
      traceRay scene ray =
      mkCast (Fin (hit_t ray sb)) (Some (Z.of_nat k)) (Some (hit_normal ray sb))).
Proof.
  unfold traceRay. cbv zeta.
  destruct (traceLoop_scene scene) as [Hall | k sb Hk Hpos Hmin Hfirst];
    cbn [closestSphereIndex st_t closestNormal].
  - left. split; [exact Hall | reflexivity].
  - right. exists k, sb.
    destruct (Z.ltb_spec (Z.of_nat k) 0) as [Hneg | _]; [lia |].
    repeat split; assumption.
Qed.

End Nearest.

(** ** Unit vectors and the hit point *)

Lemma normalised_scale (v : Vec3.t) :
  Vec3.normalised v = Vec3.scale v (/ sqrt (Vec3.dot v v)).
Proof.
  destruct v as [a b c]. unfold Vec3.normalised, Vec3.scale, Vec3.dot.
  cbn [Vec3.x Vec3.y Vec3.z].
  replace (a ^ 2 + b ^ 2 + c ^ 2) with (a * a + b * b + c * c) by ring.
  reflexivity.
Qed.

Lemma normalised_unit (v : Vec3.t) :
  0 < Vec3.dot v v ->
  Vec3.dot (Vec3.normalised v) (Vec3.normalised v) = 1.
Proof.
  destruct v as [a b c]. unfold Vec3.dot, Vec3.normalised.
  cbn [Vec3.x Vec3.y Vec3.z]. intros Hpos.
  assert (Hsq : a ^ 2 + b ^ 2 + c ^ 2 = a * a + b * b + c * c) by ring.
  rewrite Hsq.
  remember (a * a + b * b + c * c) as n eqn:Hn.
  assert (Hl : 0 < sqrt n) by (apply sqrt_lt_R0; exact Hpos).
  assert (Hll : sqrt n * sqrt n = n) by (apply sqrt_sqrt; lra).
  transitivity ((a * a + b * b + c * c) / (sqrt n * sqrt n)).
  - field. lra.
  - rewrite <- Hn, Hll. field. lra.
Qed.

Lemma cauchy_schwarz (u v : Vec3.t) :
  Vec3.dot u v * Vec3.dot u v <= Vec3.dot u u * Vec3.dot v v.
Proof.
  destruct u as [a b c], v as [d e f]. unfold Vec3.dot.
  cbn [Vec3.x Vec3.y Vec3.z].
  pose proof (Rle_0_sqr (a * e - b * d)) as H1.
  pose proof (Rle_0_sqr (a * f - c * d)) as H2.
  pose proof (Rle_0_sqr (b * f - c * e)) as H3.
  unfold Rsqr in *. lra.
Qed.

(** A ray only has a positive discriminant with a sphere whose radius
    is not zero. *)
Lemma quad_D_pos_radius (s : Sphere.t) (ray : Ray.t) :
  0 < quad_D s ray -> 0 < Sphere.radius s * Sphere.radius s.
Proof.
  intros HD. pose proof (quad_D_pos_a_pos s ray HD) as Ha.
  pose proof (cauchy_schwarz
                (Vec3.subtract (Ray.origin ray) (Sphere.center s))
                (Ray.direction ray)) as Hcs.
  unfold quad_D, quad_b, quad_c, quad_a in *.
  set (a := Vec3.dot (Ray.direction ray) (Ray.direction ray)) in *.
  set (oo := Vec3.dot (Vec3.subtract _ _) (Vec3.subtract _ _)) in *.
  set (od := Vec3.dot _ (Ray.direction ray)) in *.
  set (rr := Sphere.radius s * Sphere.radius s) in *.
  assert (H : 0 < a * rr) by lra.
  destruct (Rle_or_lt rr 0) as [Hle | Hlt]; [| exact Hlt].
  exfalso. assert (a * rr <= 0) by nra. lra.
Qed.

(** A value of [rayIntersects] that is not the sentinel comes from a
    positive discriminant. *)
Lemma rayIntersects_pos_D (s : Sphere.t) (ray : Ray.t) :
  0 < Sphere.rayIntersects s ray -> 0 < quad_D s ray.
Proof.
  intros H. destruct (Rle_or_lt (quad_D s ray) 0) as [Hle | Hlt].
  - rewrite (rayIntersects_miss s ray Hle) in H. lra.
  - exact Hlt.
Qed.

(** The point of the ray at the returned distance lies on the sphere. *)
Lemma hit_point_on_sphere (s : Sphere.t) (ray : Ray.t) :
  0 < quad_D s ray ->
  let p := Vec3.subtract (Ray.pointAt ray (Sphere.rayIntersects s ray))
                         (Sphere.center s) in
  Vec3.dot p p = Sphere.radius s * Sphere.radius s.
Proof.
  intros HD. cbv zeta. rewrite (rayIntersects_hit s ray HD).
  pose proof (quad_D_pos_a_pos s ray HD) as Ha.
  assert (Hs : sqrt (quad_D s ray) * sqrt (quad_D s ray) = quad_D s ray)
    by (apply sqrt_sqrt; lra).
  set (q := sqrt (quad_D s ray)) in *.
  set (t0 := (- quad_b s ray - q) / (2 * quad_a ray)).
  assert (Hroot : quad_a ray * t0 * t0 + quad_b s ray * t0 + quad_c s ray = 0).
  { unfold t0.
    transitivity ((q * q - quad_D s ray) / (4 * quad_a ray)).
    - unfold quad_D. field. lra.
    - rewrite Hs. field. lra. }
  clearbody t0. clear Hs HD Ha q.
  unfold quad_a, quad_b, quad_c in Hroot.
  destruct ray as [[ox oy oz] [dx dy dz]], s as [[cx cy cz] r col].
  unfold Vec3.dot, Vec3.subtract, Ray.pointAt in *.
  cbn [Vec3.x Vec3.y Vec3.z Ray.origin Ray.direction Sphere.center
       Sphere.radius] in *.
  lra.
Qed.

(** The normal stored for a sphere that is hit is a unit vector. *)
Lemma hit_normal_unit (s : Sphere.t) (ray : Ray.t) :
  0 < hit_t ray s ->
  Vec3.dot (hit_normal ray s) (hit_normal ray s) = 1.
Proof.
  intros H. unfold hit_t in H. apply rayIntersects_pos_D in H.
  unfold hit_normal, hit_t. apply normalised_unit.
  rewrite (hit_point_on_sphere s ray H).
  apply (quad_D_pos_radius s ray H).
Qed.



(** ** The shader *)

Lemma index_of_nat {A : Type} (l : list A) (k : nat) :
  index l (Z.of_nat k) = nth_error l k.
Proof.
  unfold index. destruct (Z.ltb_spec (Z.of_nat k) 0) as [H | _]; [lia |].
  rewrite Nat2Z.id. reflexivity.
Qed.

(** What a result of [traceRay] with a sphere index says of the scene. *)
Lemma traceRay_hit_inv (scene : list Sphere.t) (ray : Ray.t)
  (tb : R) (i : Z) (n : Vec3.t) :
  traceRay scene ray = mkCast (Fin tb) (Some i) (Some n) ->
  exists (k : nat) (sb : Sphere.t),
    i = Z.of_nat k /\ nth_error scene k = Some sb /\
    tb = Sphere.rayIntersects sb ray /\ 0 < tb /\
    n = hit_normal ray sb.
Proof.
  intros H.
  destruct (traceRay_cases ray scene)
    as [[_ Hres] | (k & sb & Hk & Hpos & _ & _ & Hres)];
    rewrite Hres in H.
  - discriminate H.
  - injection H as Ht Hi Hn. exists k, sb. unfold hit_t in *.
    subst. repeat split; try assumption; reflexivity.
Qed.

(** The test [traceRay(ray).t > 0] holds exactly when some sphere of
    the scene has a positive value of [rayIntersects]. *)
Lemma traceRay_t_pos (scene : list Sphere.t) (ray : Ray.t) :
  lt_num 0 (t (traceRay scene ray)) = true <->
  exists s, In s scene /\ 0 < Sphere.rayIntersects s ray.
Proof.
  destruct (traceRay_cases ray scene)
    as [[Hall Hres] | (k & sb & Hk & Hpos & _ & _ & Hres)];
    rewrite Hres; cbn [t lt_num]; unfold hit_t in *.
  - split.
    + intros H. apply ltb_true in H. lra.
    + intros (s & Hin & Hs). specialize (Hall s Hin). lra.
  - split.
    + intros _. exists sb. split; [| exact Hpos].
      apply (nth_error_In _ _ Hk).
    + intros _. apply ltb_lt. exact Hpos.
Qed.

(** [rayColor] on a ray for which [traceRay] found the sphere [sb]. *)
Lemma rayColor_hit (scene : list Sphere.t) (light : Vec3.t) (ray : Ray.t)
  (tb : R) (k : nat) (n : Vec3.t) (sb : Sphere.t) :
  traceRay scene ray = mkCast (Fin tb) (Some (Z.of_nat k)) (Some n) ->
  nth_error scene k = Some sb ->
  0 < tb ->
  rayColor scene light ray =
  Some
    (let albedo := Sphere.color sb in
     let view :=
       Vec3.normalised (Vec3.subtract (Ray.origin ray) (Ray.pointAt ray tb)) in
     let accumulated :=
       Vec3.add (Vec3.scale albedo (diffuseLighting light n))
                (Vec3.scale albedo (specularLighting light n view)) in
     let shadowRay :=
       Ray.mk (Vec3.add (Ray.pointAt ray tb) (Vec3.scale n 0.01))
              (negLightDirection light) in
     let attenuated :=
       if lt_num 0 (t (traceRay scene shadowRay))
       then Vec3.scale accumulated 0.4 else accumulated in
     if (Z.of_nat k =? 2)%Z then Vec3.scale attenuated 1.2 else attenuated).
Proof.
  intros Hres Hk Hpos. unfold rayColor. cbv zeta. rewrite Hres.
  cbn [t sphereIndex normal num_lt finite bind].
  rewrite (ltb_ge tb 0) by lra.
  cbn [bind]. rewrite index_of_nat, Hk. cbn [bind]. reflexivity.
Qed.

(** C3.  When [traceRay] returns a sphere, [rayColor] first adds
    [albedo * diffuse] and [albedo * specular]; then, if the ray cast
    from the hit point moved by [0.01] along the normal, in the
    direction opposite to the light, has a sphere with a positive
    intersection value, it multiplies the sum by [0.4]; and after that,
    if the sphere is at index [2], it multiplies by [1.2].  A shadowed
    hit on the sphere of index [2] is the sum times [0.4] times [1.2].
    The shadow ray and the three channels of the colour are also given
    in coordinates, as products of real numbers. *)
Theorem rayColor_shading (scene : list Sphere.t) (light : Vec3.t)
  (ray : Ray.t) (tb : R) (i : Z) (n : Vec3.t) :
  traceRay scene ray = mkCast (Fin tb) (Some i) (Some n) ->
  exists sphere : Sphere.t,
    index scene i = Some sphere /\
    let albedo := Sphere.color sphere in
    let view :=
      Vec3.normalised (Vec3.subtract (Ray.origin ray) (Ray.pointAt ray tb)) in
    let accumulated :=
      Vec3.add (Vec3.scale albedo (diffuseLighting light n))
               (Vec3.scale albedo (specularLighting light n view)) in
    let shadowRay :=
      Ray.mk (Vec3.add (Ray.pointAt ray tb) (Vec3.scale n 0.01))
             (negLightDirection light) in
    let shadowed := lt_num 0 (t (traceRay scene shadowRay)) in
    let attenuated :=
      if shadowed then Vec3.scale accumulated 0.4 else accumulated in
    (shadowed = true <->
     exists s, In s scene /\ 0 < Sphere.rayIntersects s shadowRay) /\
    rayColor scene light ray =
    Some (if (i =? 2)%Z then Vec3.scale attenuated 1.2 else attenuated) /\
    (shadowed = true -> i = 2%Z ->
     rayColor scene light ray =
     Some (Vec3.scale (Vec3.scale accumulated 0.4) 1.2)) /\
    let d := diffuseLighting light n in
    let s := specularLighting light n view in
    let f1 := if shadowed then 0.4 else 1 in
    let f2 := if (i =? 2)%Z then 1.2 else 1 in
    shadowRay =
    Ray.mk
      (Vec3.mk
         (Vec3.x (Ray.origin ray) + tb * Vec3.x (Ray.direction ray)
          + Vec3.x n * 0.01)
         (Vec3.y (Ray.origin ray) + tb * Vec3.y (Ray.direction ray)
          + Vec3.y n * 0.01)
         (Vec3.z (Ray.origin ray) + tb * Vec3.z (Ray.direction ray)
          + Vec3.z n * 0.01))
      (Vec3.mk (- Vec3.x light) (- Vec3.y light) (- Vec3.z light)) /\
    exists c : Vec3.t,
      rayColor scene light ray = Some c /\
      Vec3.x c = (Vec3.x albedo * d + Vec3.x albedo * s) * f1 * f2 /\
      Vec3.y c = (Vec3.y albedo * d + Vec3.y albedo * s) * f1 * f2 /\
      Vec3.z c = (Vec3.z albedo * d + Vec3.z albedo * s) * f1 * f2 /\
      (shadowed = true -> i = 2%Z ->
       Vec3.x c = (Vec3.x albedo * d + Vec3.x albedo * s) * 0.4 * 1.2 /\
       Vec3.y c = (Vec3.y albedo * d + Vec3.y albedo * s) * 0.4 * 1.2 /\
       Vec3.z c = (Vec3.z albedo * d + Vec3.z albedo * s) * 0.4 * 1.2).
Proof.
  intros Hres.
  destruct (traceRay_hit_inv scene ray tb i n Hres)
    as (k & sb & -> & Hk & _ & Hpos & _).
  exists sb. split; [rewrite index_of_nat; exact Hk |].
  cbv zeta. split; [apply traceRay_t_pos |].
  pose proof (rayColor_hit scene light ray tb k n sb Hres Hk Hpos) as Hc.
  cbv zeta in Hc. split; [exact Hc |].
  split; [intros Hsh Hi; rewrite Hc, Hsh, Hi; reflexivity |].
  split; [reflexivity |].
  eexists. split; [exact Hc |].
  destruct (Sphere.color sb) as [a1 a2 a3].
  set (d := diffuseLighting light n).
  set (s := specularLighting light n _).
  destruct (lt_num 0 _) eqn:Hsh, (Z.of_nat k =? 2)%Z eqn:Hi; vec_simpl;
    (split; [ring |]); (split; [ring |]); (split; [ring |]);
    intros Hsh' Hi'; try discriminate Hsh';
    try (rewrite Hi' in Hi; discriminate Hi);
    repeat split; ring.
Qed.

Lemma scale_scale (c : Vec3.t) (a b : R) :
  Vec3.scale (Vec3.scale c a) b = Vec3.scale c (a * b).
Proof.
  destruct c as [c1 c2 c3]. unfold Vec3.scale. cbn [Vec3.x Vec3.y Vec3.z].
  f_equal; ring.
Qed.

Lemma scale_one (c : Vec3.t) : Vec3.scale c 1 = c.
Proof.
  destruct c as [c1 c2 c3]. unfold Vec3.scale. cbn [Vec3.x Vec3.y Vec3.z].
  f_equal; ring.
Qed.

(** The vector from a point of the ray back to the origin of the ray. *)
Lemma view_vector_dot (ray : Ray.t) (t0 : R) :
  let w := Vec3.subtract (Ray.origin ray) (Ray.pointAt ray t0) in
  Vec3.dot w w = t0 * t0 * quad_a ray.
Proof.
  destruct ray as [[ox oy oz] [dx dy dz]].
  unfold quad_a, Vec3.dot, Vec3.subtract, Ray.pointAt.
  cbn [Vec3.x Vec3.y Vec3.z Ray.origin Ray.direction]. ring.
Qed.

Lemma view_direction_unit (s : Sphere.t) (ray : Ray.t) :
  0 < Sphere.rayIntersects s ray ->
  let view :=
    Vec3.normalised
      (Vec3.subtract (Ray.origin ray)
                     (Ray.pointAt ray (Sphere.rayIntersects s ray))) in
  Vec3.dot view view = 1.
Proof.
  intros Hpos. cbv zeta. apply normalised_unit.
  pose proof (view_vector_dot ray (Sphere.rayIntersects s ray)) as Hw.
  cbv zeta in Hw. rewrite Hw.
  pose proof (quad_D_pos_a_pos s ray (rayIntersects_pos_D s ray Hpos)) as Ha.
  apply Rmult_lt_0_compat; [apply Rmult_lt_0_compat |]; assumption.
Qed.

(** C4.  On a hit, the specular term is
    [max(dot(reflection, viewDirection), 0) ^ 7 * 0.8] with
    [reflection = normal * (2 * dot(normal, lightDirection)) - lightDirection]
    and [viewDirection] the unit vector from the hit point back to the
    origin of the ray; it enters the colour multiplied by the albedo of
    the sphere, as the diffuse term does: the colour is
    [albedo * diffuse + albedo * specular] times the shadow factor
    ([0.4] or [1]) and the index-2 factor ([1.2] or [1]).  The view
    direction, the specular term and the three channels are also given
    in coordinates. *)
Theorem specular_contribution (scene : list Sphere.t) (light : Vec3.t)
  (ray : Ray.t) (tb : R) (i : Z) (n : Vec3.t) :
  traceRay scene ray = mkCast (Fin tb) (Some i) (Some n) ->
  exists sphere : Sphere.t,
    index scene i = Some sphere /\
    let albedo := Sphere.color sphere in
    let view :=
      Vec3.normalised (Vec3.subtract (Ray.origin ray) (Ray.pointAt ray tb)) in
    let reflection :=
      Vec3.subtract (Vec3.scale n (2 * Vec3.dot n light)) light in
    let specular := Rmax (Vec3.dot reflection view) 0 ^ 7 * 0.8 in
    let shadowRay :=
      Ray.mk (Vec3.add (Ray.pointAt ray tb) (Vec3.scale n 0.01))
             (negLightDirection light) in
    let f := (if lt_num 0 (t (traceRay scene shadowRay)) then 0.4 else 1)
             * (if (i =? 2)%Z then 1.2 else 1) in
    Vec3.dot view view = 1 /\
    specularLighting light n view = specular /\
    rayColor scene light ray =
    Some (Vec3.scale
            (Vec3.add (Vec3.scale albedo (diffuseLighting light n))
                      (Vec3.scale albedo specular))
            f) /\
    let ex := Vec3.x (Ray.origin ray)
              - (Vec3.x (Ray.origin ray) + tb * Vec3.x (Ray.direction ray)) in
    let ey := Vec3.y (Ray.origin ray)
              - (Vec3.y (Ray.origin ray) + tb * Vec3.y (Ray.direction ray)) in
    let ez := Vec3.z (Ray.origin ray)
              - (Vec3.z (Ray.origin ray) + tb * Vec3.z (Ray.direction ray)) in
    let len := sqrt (ex * ex + ey * ey + ez * ez) in
    let nl := Vec3.x n * Vec3.x light + Vec3.y n * Vec3.y light
              + Vec3.z n * Vec3.z light in
    let rx := Vec3.x n * (2 * nl) - Vec3.x light in
    let ry := Vec3.y n * (2 * nl) - Vec3.y light in
    let rz := Vec3.z n * (2 * nl) - Vec3.z light in
    let rv := rx * (ex / len) + ry * (ey / len) + rz * (ez / len) in
    let sp := Rmax rv 0 ^ 7 * 0.8 in
    let d := diffuseLighting light n in
    0 < len /\
    view = Vec3.mk (ex / len) (ey / len) (ez / len) /\
    specular = sp /\
    exists c : Vec3.t,
      rayColor scene light ray = Some c /\
      Vec3.x c = (Vec3.x albedo * d + Vec3.x albedo * sp) * f /\
      Vec3.y c = (Vec3.y albedo * d + Vec3.y albedo * sp) * f /\
      Vec3.z c = (Vec3.z albedo * d + Vec3.z albedo * sp) * f.
Proof.
  intros Hres.
  destruct (traceRay_hit_inv scene ray tb i n Hres)
    as (k & sb & -> & Hk & Htb & Hpos & _).
  pose proof (rayColor_hit scene light ray tb k n sb Hres Hk Hpos) as Hc.
  cbv zeta in Hc.
  assert (Hview :
            Vec3.dot
              (Vec3.normalised
                 (Vec3.subtract (Ray.origin ray) (Ray.pointAt ray tb)))
              (Vec3.normalised
                 (Vec3.subtract (Ray.origin ray) (Ray.pointAt ray tb))) = 1).
  { rewrite Htb. apply view_direction_unit. rewrite <- Htb. exact Hpos. }
  assert (Hlen : 0 < Vec3.dot
                       (Vec3.subtract (Ray.origin ray) (Ray.pointAt ray tb))
                       (Vec3.subtract (Ray.origin ray) (Ray.pointAt ray tb))).
  { pose proof (view_vector_dot ray tb) as Hw. cbv zeta in Hw. rewrite Hw.
    assert (Ha : 0 < quad_a ray).
    { apply (quad_D_pos_a_pos sb ray). apply rayIntersects_pos_D.
      rewrite <- Htb. exact Hpos. }
    apply Rmult_lt_0_compat; [apply Rmult_lt_0_compat |]; assumption. }
  assert (Hcolor :
    rayColor scene light ray =
    Some (Vec3.scale
            (Vec3.add (Vec3.scale (Sphere.color sb) (diffuseLighting light n))
               (Vec3.scale (Sphere.color sb)
                  (specularLighting light n
                     (Vec3.normalised
                        (Vec3.subtract (Ray.origin ray) (Ray.pointAt ray tb))))))
            ((if lt_num 0
                   (t (traceRay scene
                         (Ray.mk (Vec3.add (Ray.pointAt ray tb) (Vec3.scale n 0.01))
                                 (negLightDirection light))))
              then 0.4 else 1)
             * (if (Z.of_nat k =? 2)%Z then 1.2 else 1)))).
  { rewrite Hc. f_equal.
    destruct (lt_num 0 _), (Z.of_nat k =? 2)%Z;
      rewrite ?scale_scale, ?Rmult_1_l, ?Rmult_1_r, ?scale_one; reflexivity. }
  exists sb. split; [rewrite index_of_nat; exact Hk |].
  cbv zeta. split; [exact Hview |]. split; [reflexivity |].
  split; [exact Hcolor |].
  split; [apply sqrt_lt_R0; exact Hlen |].
  split; [rewrite normalised_scale; reflexivity |].
  split; [rewrite normalised_scale; reflexivity |].
  eexists. split; [exact Hcolor |].
  unfold specularLighting. cbv zeta. rewrite normalised_scale.
  destruct (Sphere.color sb) as [a1 a2 a3].
  repeat split.
Qed.

(** C10.  The result of [traceRay] is either the object [{ t: -1 }] or
    an object with a positive [t] and the index of a sphere of the
    scene.  So the test [castResult.t < 0] of [rayColor] holds exactly
    for the first, the read [spheres[castResult.sphereIndex]] finds a
    sphere whenever the test fails, and [rayColor] returns a colour for
    every ray. *)
Theorem traceRay_result_safe (scene : list Sphere.t) (light : Vec3.t)
  (ray : Ray.t) :
  let castResult := traceRay scene ray in
  (castResult = mkCast (Fin (-1)) None None \/
   exists (tb : R) (i : Z) (n : Vec3.t),
     castResult = mkCast (Fin tb) (Some i) (Some n) /\
     0 < tb /\ (0 <= i < Z.of_nat (length scene))%Z) /\
  (num_lt (t castResult) 0 = true <->
   castResult = mkCast (Fin (-1)) None None) /\
  (num_lt (t castResult) 0 = false ->
   exists (i : Z) (sphere : Sphere.t),
     sphereIndex castResult = Some i /\ index scene i = Some sphere) /\
  (exists c : Vec3.t, rayColor scene light ray = Some c).
Proof.
  cbv zeta.
  destruct (traceRay_cases ray scene)
    as [[_ Hres] | (k & sb & Hk & Hpos & _ & _ & Hres)]; unfold hit_t in *.
  - rewrite Hres. cbn [t num_lt]. rewrite (ltb_lt (-1) 0) by lra.
    repeat split.
    + left. reflexivity.
    + intros H. discriminate H.
    + exists (backgroundColour ray). unfold rayColor. cbv zeta.
      rewrite Hres. cbn [t num_lt]. rewrite (ltb_lt (-1) 0) by lra.
      reflexivity.
  - assert (Hlen : (k < length scene)%nat).
    { apply nth_error_Some. rewrite Hk. discriminate. }
    pose proof (rayColor_hit scene light ray _ k _ sb Hres Hk Hpos) as Hc.
    rewrite Hres. cbn [t num_lt sphereIndex].
    rewrite (ltb_ge _ 0) by lra.
    repeat split.
    + right. eexists _, _, _. split; [reflexivity |]. split; [exact Hpos | lia].
    + intros H. discriminate H.
    + intros H. discriminate H.
    + intros _. exists (Z.of_nat k), sb. split; [reflexivity |].
      rewrite index_of_nat. exact Hk.
    + eexists. exact Hc.
Qed.

(** ** The background *)

Lemma rayColor_miss (scene : list Sphere.t) (light : Vec3.t) (ray : Ray.t) :
  (forall s, In s scene -> Sphere.rayIntersects s ray <= 0) ->
  rayColor scene light ray = Some (backgroundColour ray).
Proof.
  intros Hall. unfold rayColor. cbv zeta.
  destruct (traceRay_cases ray scene)
    as [[_ Hres] | (k & sb & Hk & Hpos & _ & _ & _)]; unfold hit_t in *.
  - rewrite Hres. cbn [t num_lt]. rewrite (ltb_lt (-1) 0) by lra.
    reflexivity.
  - specialize (Hall sb (nth_error_In _ _ Hk)). lra.
Qed.

Lemma normalised_up : Vec3.normalised (Vec3.mk 0 1 0) = Vec3.mk 0 1 0.
Proof.
  unfold Vec3.normalised. cbn [Vec3.x Vec3.y Vec3.z].
  replace (0 ^ 2 + 1 ^ 2 + 0 ^ 2) with 1 by ring.
  rewrite sqrt_1. f_equal; field.
Qed.

Lemma normalised_down : Vec3.normalised (Vec3.mk 0 (-1) 0) = Vec3.mk 0 (-1) 0.
Proof.
  unfold Vec3.normalised. cbn [Vec3.x Vec3.y Vec3.z].
  replace (0 ^ 2 + (-1) ^ 2 + 0 ^ 2) with 1 by ring.
  rewrite sqrt_1. f_equal; field.
Qed.

Lemma backgroundColour_up (o : Vec3.t) :
  backgroundColour (Ray.mk o (Vec3.mk 0 1 0)) = Vec3.mk 0.5 0.9 1.0.
Proof.
  unfold backgroundColour. cbv zeta. cbn [Ray.direction].
  rewrite normalised_up. cbn [Vec3.y]. rewrite acos_1.
  unfold skyColor, groundColor, Vec3.add, Vec3.scale.
  cbn [Vec3.x Vec3.y Vec3.z].
  pose proof PI_neq0. f_equal; field; assumption.
Qed.

Lemma backgroundColour_down (o : Vec3.t) :
  backgroundColour (Ray.mk o (Vec3.mk 0 (-1) 0)) = Vec3.mk 0.3 0.3 0.5.
Proof.
  unfold backgroundColour. cbv zeta. cbn [Ray.direction].
  rewrite normalised_down. cbn [Vec3.y].
  replace (acos (-1)) with PI
    by (unfold acos; destruct (Rle_dec (-1) (-1)); [reflexivity | lra]).
  unfold skyColor, groundColor, Vec3.add, Vec3.scale.
  cbn [Vec3.x Vec3.y Vec3.z].
  pose proof PI_neq0. f_equal; field; assumption.
Qed.

(** The [y] component of a normalised vector, in coordinates. *)
Lemma normalised_y (d : Vec3.t) :
  Vec3.y (Vec3.normalised d) =
  Vec3.y d / sqrt (Vec3.x d * Vec3.x d + Vec3.y d * Vec3.y d
                   + Vec3.z d * Vec3.z d).
Proof. rewrite normalised_scale. reflexivity. Qed.

Lemma normalised_vertical (k : R) :
  0 < k ->
  Vec3.normalised (Vec3.mk 0 k 0) = Vec3.mk 0 1 0 /\
  Vec3.normalised (Vec3.mk 0 (- k) 0) = Vec3.mk 0 (-1) 0.
Proof.
  intros Hk. rewrite !normalised_scale.
  replace (Vec3.dot (Vec3.mk 0 k 0) (Vec3.mk 0 k 0)) with (k * k)
    by (vec_simpl; ring).
  replace (Vec3.dot (Vec3.mk 0 (- k) 0) (Vec3.mk 0 (- k) 0)) with (k * k)
    by (vec_simpl; ring).
  rewrite sqrt_square by lra. vec_simpl.
  split; apply vec3_eq; field; lra.
Qed.

(** C5.  For a ray for which no sphere has a positive intersection
    value and whose direction is not the zero vector, the colour is
    [sky * (1 - v) + ground * v] with [v = theta / PI], [theta = acos]
    of the [y] component of the normalised direction, that is of
    [dy / sqrt (dx * dx + dy * dy + dz * dz)], [sky = (0.5, 0.9, 1.0)]
    and [ground = (0.3, 0.3, 0.5)]; with direction [(0, 1, 0)], or a
    positive multiple of it, it is the sky colour and with direction
    [(0, -1, 0)], or a positive multiple of it, the ground colour. *)
Theorem rayColor_background (scene : list Sphere.t) (light : Vec3.t)
  (ray : Ray.t) :
  (forall s, In s scene -> Sphere.rayIntersects s ray <= 0) ->
  (Ray.direction ray <> Vec3.mk 0 0 0 ->
   let dx := Vec3.x (Ray.direction ray) in
   let dy := Vec3.y (Ray.direction ray) in
   let dz := Vec3.z (Ray.direction ray) in
   let len := sqrt (dx * dx + dy * dy + dz * dz) in
   let theta := acos (dy / len) in
   let v := theta / PI in
   let sky := Vec3.mk 0.5 0.9 1.0 in
   let ground := Vec3.mk 0.3 0.3 0.5 in
   0 < len /\ -1 <= dy / len <= 1 /\ 0 <= v <= 1 /\
   theta = acos (Vec3.y (Vec3.normalised (Ray.direction ray))) /\
   rayColor scene light ray =
   Some (Vec3.add (Vec3.scale sky (1 - v)) (Vec3.scale ground v)) /\
   rayColor scene light ray =
   Some (Vec3.mk (0.5 * (1 - v) + 0.3 * v)
                 (0.9 * (1 - v) + 0.3 * v)
                 (1.0 * (1 - v) + 0.5 * v))) /\
  (Ray.direction ray = Vec3.mk 0 1 0 ->
   rayColor scene light ray = Some (Vec3.mk 0.5 0.9 1.0)) /\
  (Ray.direction ray = Vec3.mk 0 (-1) 0 ->
   rayColor scene light ray = Some (Vec3.mk 0.3 0.3 0.5)) /\
  (forall k : R, 0 < k ->
     (Ray.direction ray = Vec3.mk 0 k 0 ->
      rayColor scene light ray = Some (Vec3.mk 0.5 0.9 1.0)) /\
     (Ray.direction ray = Vec3.mk 0 (- k) 0 ->
      rayColor scene light ray = Some (Vec3.mk 0.3 0.3 0.5))).
Proof.
  intros Hall. rewrite (rayColor_miss scene light ray Hall).
  destruct ray as [o d]. cbn [Ray.direction].
  split; [| split; [| split]].
  - intros Hd. cbv zeta.
    assert (Hdd : 0 < Vec3.dot d d).
    { pose proof (dot_self_nonneg d) as H.
      destruct (Req_dec (Vec3.dot d d) 0) as [H0 | H0]; [| lra].
      exfalso. apply Hd, dot_self_zero, H0. }
    pose proof (normalised_unit d Hdd) as Hunit.
    pose proof (normalised_y d) as Hy.
    assert (Hlen : 0 < sqrt (Vec3.x d * Vec3.x d + Vec3.y d * Vec3.y d
                             + Vec3.z d * Vec3.z d))
      by (apply sqrt_lt_R0; exact Hdd).
    rewrite <- Hy.
    assert (Hrange : -1 <= Vec3.y (Vec3.normalised d) <= 1).
    { destruct (Vec3.normalised d) as [a b c]. revert Hunit. vec_simpl.
      intros Hunit. nra. }
    pose proof (acos_bound (Vec3.y (Vec3.normalised d))) as Hth.
    pose proof PI_RGT_0 as Hpi.
    assert (Hv : 0 <= acos (Vec3.y (Vec3.normalised d)) / PI <= 1).
    { split.
      - apply Rmult_le_pos; [lra | left; apply Rinv_0_lt_compat; lra].
      - apply (Rmult_le_reg_r PI); [lra |].
        unfold Rdiv. rewrite Rmult_assoc, Rinv_l by lra. lra. }
    repeat split; try lra; try assumption; reflexivity.
  - intros ->. f_equal. apply backgroundColour_up.
  - intros ->. f_equal. apply backgroundColour_down.
  - intros k Hk. destruct (normalised_vertical k Hk) as [Hup Hdown].
    split; intros ->; f_equal; unfold backgroundColour; cbv zeta;
      cbn [Ray.direction].
    + rewrite Hup. pose proof (backgroundColour_up o) as H.
      unfold backgroundColour in H. cbv zeta in H. cbn [Ray.direction] in H.
      rewrite normalised_up in H. exact H.
    + rewrite Hdown. pose proof (backgroundColour_down o) as H.
      unfold backgroundColour in H. cbv zeta in H. cbn [Ray.direction] in H.
      rewrite normalised_down in H. exact H.
Qed.

(** C9.  [backgroundColour] is a function of the [y] component of the
    normalised direction alone: two rays that agree on it get the same
    background colour, whatever their origins and the other components
    ([phi] and [u] do not enter the result), and so the same colour from
    [rayColor] when both miss the scene. *)
Theorem backgroundColour_latitude_only (r1 r2 : Ray.t) :
  Vec3.y (Vec3.normalised (Ray.direction r1)) =
  Vec3.y (Vec3.normalised (Ray.direction r2)) ->
  backgroundColour r1 = backgroundColour r2 /\
  (forall (scene : list Sphere.t) (light : Vec3.t),
      (forall s, In s scene -> Sphere.rayIntersects s r1 <= 0) ->
      (forall s, In s scene -> Sphere.rayIntersects s r2 <= 0) ->
      rayColor scene light r1 = rayColor scene light r2).
Proof.
  intros Hy.
  assert (Hbg : backgroundColour r1 = backgroundColour r2).
  { unfold backgroundColour. cbv zeta. rewrite Hy. reflexivity. }
  split; [exact Hbg |].
  intros scene light H1 H2.
  rewrite (rayColor_miss scene light r1 H1), (rayColor_miss scene light r2 H2).
  rewrite Hbg. reflexivity.
Qed.

(** ** A ray aimed at the centre, and a line that misses *)

Lemma rayIntersects_aimed (s : Sphere.t) (ray : Ray.t) :
  let toCenter := Vec3.subtract (Sphere.center s) (Ray.origin ray) in
  let distance := sqrt (Vec3.dot toCenter toCenter) in
  0 < Sphere.radius s ->
  Sphere.radius s < distance ->
  Ray.direction ray = Vec3.normalised toCenter ->
  Sphere.rayIntersects s ray = distance - Sphere.radius s.
Proof.
  cbv zeta. intros Hr Hout Hdir.
  set (w := Vec3.subtract (Sphere.center s) (Ray.origin ray)) in *.
  set (L := sqrt (Vec3.dot w w)) in *.
  assert (Hww : 0 < Vec3.dot w w).
  { destruct (Rle_or_lt (Vec3.dot w w) 0) as [Hle | Hlt]; [| exact Hlt].
    unfold L in Hout. rewrite (sqrt_neg_0 _ Hle) in Hout. lra. }
  assert (HLL : L * L = Vec3.dot w w) by (apply sqrt_sqrt; lra).
  assert (HL : 0 < L) by lra.
  assert (Ha : quad_a ray = 1).
  { unfold quad_a. rewrite Hdir. apply normalised_unit. exact Hww. }
  assert (Hb : quad_b s ray = - 2 * L).
  { unfold quad_b. rewrite Hdir, normalised_scale. fold L.
    transitivity (- 2 * (Vec3.dot w w) * / L).
    - unfold w. destruct ray as [[ox oy oz] d], s as [[cx cy cz] r col].
      unfold Vec3.dot, Vec3.subtract, Vec3.scale.
      cbn [Vec3.x Vec3.y Vec3.z Ray.origin Sphere.center]. ring.
    - rewrite <- HLL. field. lra. }
  assert (Hc : quad_c s ray = L * L - Sphere.radius s * Sphere.radius s).
  { unfold quad_c. rewrite HLL. unfold w.
    destruct ray as [[ox oy oz] d], s as [[cx cy cz] r col].
    unfold Vec3.dot, Vec3.subtract.
    cbn [Vec3.x Vec3.y Vec3.z Ray.origin Sphere.center Sphere.radius]. ring. }
  assert (HD : quad_D s ray = (2 * Sphere.radius s) * (2 * Sphere.radius s)).
  { unfold quad_D. rewrite Ha, Hb, Hc. ring. }
  assert (HDpos : 0 < quad_D s ray) by (rewrite HD; nra).
  rewrite (rayIntersects_hit s ray HDpos), HD, Ha, Hb.
  rewrite sqrt_square by lra. field.
Qed.

Lemma rayIntersects_line_misses (s : Sphere.t) (ray : Ray.t) :
  (forall t0 : R,
      let p := Vec3.subtract (Ray.pointAt ray t0) (Sphere.center s) in
      Sphere.radius s * Sphere.radius s < Vec3.dot p p) ->
  Sphere.rayIntersects s ray = -1.
Proof.
  intros Hline. apply rayIntersects_miss.
  destruct (Rle_or_lt (quad_D s ray) 0) as [Hle | Hlt]; [exact Hle |].
  exfalso. pose proof (hit_point_on_sphere s ray Hlt) as Hon.
  specialize (Hline (Sphere.rayIntersects s ray)). cbv zeta in *.
  rewrite Hon in Hline. lra.
Qed.

(** C7, over real numbers.  For a sphere of positive radius and a ray
    whose origin is outside it and whose direction is the unit vector
    towards the centre, [rayIntersects] returns the distance from the
    origin to the centre minus the radius; for a ray whose line has
    every point outside the sphere it returns [-1].  (On binary64
    numbers the discriminant can round to the other side of [0]: see
    [DoubleRuns.rayIntersects_rounds_to_other_branch].) *)
Theorem rayIntersects_center_and_miss (s : Sphere.t) (ray : Ray.t) :
  let toCenter := Vec3.subtract (Sphere.center s) (Ray.origin ray) in
  let distance := sqrt (Vec3.dot toCenter toCenter) in
  (0 < Sphere.radius s ->
   Sphere.radius s < distance ->
   Ray.direction ray = Vec3.normalised toCenter ->
   Vec3.dot (Ray.direction ray) (Ray.direction ray) = 1 /\
   Sphere.rayIntersects s ray = distance - Sphere.radius s) /\
  ((forall t0 : R,
       let p := Vec3.subtract (Ray.pointAt ray t0) (Sphere.center s) in
       Sphere.radius s * Sphere.radius s < Vec3.dot p p) ->
   Sphere.rayIntersects s ray = -1).
Proof.
  cbv zeta. split.
  - intros Hr Hout Hdir. split.
    + rewrite Hdir. apply normalised_unit.
      destruct (Rle_or_lt
                  (Vec3.dot (Vec3.subtract (Sphere.center s) (Ray.origin ray))
                            (Vec3.subtract (Sphere.center s) (Ray.origin ray)))
                  0) as [Hle | Hlt]; [| exact Hlt].
      rewrite (sqrt_neg_0 _ Hle) in Hout. lra.
    + apply (rayIntersects_aimed s ray Hr Hout Hdir).
  - apply rayIntersects_line_misses.
Qed.

(** ** The loops of [render] *)

Lemma for_loop_step {A : Type} (i bound : Z) (body : Z -> A -> option A)
  (acc : A) :
  for_loop i bound body acc =
  if Z_lt_dec i bound
  then match body i acc with
       | Some acc' => for_loop (i + 1) bound body acc'
       | None => None
       end
  else Some acc.
Proof.
  simp for_loop. destruct (Z_lt_dec i bound); cbn;
    [destruct (body i acc) |]; reflexivity.
Qed.

Lemma in_zrange (m : nat) (i j : Z) :
  In j (zrange i m) <-> (i <= j < i + Z.of_nat m)%Z.
Proof.
  revert i. induction m as [| m IH]; intros i; cbn [zrange In].
  - lia.
  - rewrite IH. lia.
Qed.

(** A loop whose body appends [h j] at counter [j] appends them all,
    in the order of the counter. *)
Lemma for_loop_extend {B : Type} (h : Z -> list B)
  (body : Z -> list B -> option (list B)) (bound : Z) :
  forall (m : nat) (i : Z) (acc : list B),
    Z.to_nat (bound - i) = m ->
    (forall j acc', (i <= j < bound)%Z -> body j acc' = Some (acc' ++ h j)) ->
    for_loop i bound body acc = Some (acc ++ concat (map h (zrange i m))).
Proof.
  induction m as [| m IH]; intros i acc Hm Hbody; rewrite for_loop_step.
  - destruct (Z_lt_dec i bound) as [Hlt | _]; [lia |].
    cbn. rewrite app_nil_r. reflexivity.
  - destruct (Z_lt_dec i bound) as [Hlt | Hge]; [| lia].
    rewrite (Hbody i acc) by lia.
    rewrite (IH (i + 1)%Z (acc ++ h i)).
    + cbn [zrange map concat]. rewrite <- app_assoc. reflexivity.
    + lia.
    + intros j acc' Hj. apply Hbody. lia.
Qed.

(** [renderPixel] returns a pixel for every position. *)
Lemma renderPixel_some (scene : list Sphere.t) (light : Vec3.t)
  (width height x y : Z) :
  exists c : Vec3.t,
    rayColor scene light
      (Ray.mk (Vec3.mk 0 0 0)
         (Vec3.normalised
            (Vec3.mk (IZR x / IZR width * 2 - 2 / 2)
                     (- (IZR y / IZR height * 2 - 2 / 2))
                     (- (1))))) = Some c /\
    renderPixel scene light width height x y =
    Some (mkPaint x y
            (Rmin 1 (Rmax 0 (Vec3.x c)) * 255)
            (Rmin 1 (Rmax 0 (Vec3.y c)) * 255)
            (Rmin 1 (Rmax 0 (Vec3.z c)) * 255)).
Proof.
  unfold renderPixel. cbv zeta.
  set (ray := Ray.mk _ _).
  destruct (traceRay_cases ray scene)
    as [[Hall _] | (k & sb & Hk & Hpos & _ & _ & Hres)]; unfold hit_t in *.
  - exists (backgroundColour ray).
    rewrite (rayColor_miss scene light ray Hall). split; reflexivity.
  - eexists. rewrite (rayColor_hit scene light ray _ k _ sb Hres Hk Hpos).
    split; reflexivity.
Qed.

Lemma renderPixel_paintAt (scene : list Sphere.t) (light : Vec3.t)
  (width height x y : Z) :
  renderPixel scene light width height x y =
  Some (paintAt scene light width height x y).
Proof.
  unfold paintAt.
  destruct (renderPixel_some scene light width height x y) as (c & _ & ->).
  reflexivity.
Qed.

Lemma render_frame (scene : list Sphere.t) (light : Vec3.t)
  (width height : Z) :
  render scene light width height =
  Some (paintedFrame scene light width height).
Proof.
  unfold render.
  rewrite (for_loop_extend (paintedRow scene light width height) _ height
             (Z.to_nat height) 0 []).
  - reflexivity.
  - f_equal. lia.
  - intros y acc _.
    apply (for_loop_extend
             (fun x => [paintAt scene light width height x y]) _ width
             (Z.to_nat width) 0 acc).
    + f_equal. lia.
    + intros x acc' _. rewrite renderPixel_paintAt. reflexivity.
Qed.

Lemma in_paintedFrame (scene : list Sphere.t) (light : Vec3.t)
  (width height : Z) (p : Paint) :
  In p (paintedFrame scene light width height) <->
  exists x y : Z,
    (0 <= x < width)%Z /\ (0 <= y < height)%Z /\
    p = paintAt scene light width height x y.
Proof.
  unfold paintedFrame, paintedRow. rewrite in_concat. split.
  - intros (row & Hrow & Hp). apply in_map_iff in Hrow.
    destruct Hrow as (y & <- & Hy). apply in_zrange in Hy.
    apply in_concat in Hp. destruct Hp as (cell & Hcell & Hp).
    apply in_map_iff in Hcell. destruct Hcell as (x & <- & Hx).
    apply in_zrange in Hx. destruct Hp as [<- | []].
    exists x, y. repeat split; lia.
  - intros (x & y & Hx & Hy & ->).
    eexists. split.
    + apply in_map_iff. exists y. split; [reflexivity |].
      apply in_zrange. lia.
    + apply in_concat. eexists. split.
      * apply in_map_iff. exists x. split; [reflexivity |].
        apply in_zrange. lia.
      * left. reflexivity.
Qed.

(** C8.  With a width or a height that is not positive, [render] runs
    the body of its loops for no pixel: it returns normally and nothing
    was painted. *)
Theorem render_empty_frame (scene : list Sphere.t) (light : Vec3.t)
  (width height : Z) :
  (width <= 0)%Z \/ (height <= 0)%Z ->
  render scene light width height = Some [].
Proof.
  intros Hdim. rewrite render_frame. f_equal.
  destruct (paintedFrame scene light width height) as [| p rest] eqn:E;
    [reflexivity |].
  exfalso.
  assert (Hin : In p (paintedFrame scene light width height))
    by (rewrite E; left; reflexivity).
  apply in_paintedFrame in Hin. destruct Hin as (x & y & Hx & Hy & _). lia.
Qed.

Lemma clamp_scaled_bounds (v : R) : 0 <= Rmin 1 (Rmax 0 v) * 255 <= 255.
Proof.
  pose proof (Rmin_l 1 (Rmax 0 v)) as Hle.
  assert (Hge : 0 <= Rmin 1 (Rmax 0 v)).
  { apply Rmin_glb; [lra | apply Rmax_l]. }
  lra.
Qed.

(** C6, as the code has it.  For every size, [render] returns, and for
    every pixel [(x, y)] with [0 <= x < width] and [0 <= y < height] it
    paints an entry at that position; each channel of an entry is the
    channel of the colour of [rayColor] for the camera ray of the pixel,
    clamped to [[0, 1]] and multiplied by [255]: a real number between
    [0] and [255] (no rounding to an integer takes place). *)
Theorem render_channels (scene : list Sphere.t) (light : Vec3.t)
  (width height : Z) :
  exists painted : list Paint,
    render scene light width height = Some painted /\
    (forall x y : Z, (0 <= x < width)%Z -> (0 <= y < height)%Z ->
       exists p, In p painted /\ px p = x /\ py p = y) /\
    (forall p, In p painted ->
       (0 <= px p < width)%Z /\ (0 <= py p < height)%Z /\
       (exists c : Vec3.t,
           rayColor scene light
             (Ray.mk (Vec3.mk 0 0 0)
                (Vec3.normalised
                   (Vec3.mk (IZR (px p) / IZR width * 2 - 2 / 2)
                            (- (IZR (py p) / IZR height * 2 - 2 / 2))
                            (- (1))))) = Some c /\
           red p = Rmin 1 (Rmax 0 (Vec3.x c)) * 255 /\
           green p = Rmin 1 (Rmax 0 (Vec3.y c)) * 255 /\
           blue p = Rmin 1 (Rmax 0 (Vec3.z c)) * 255) /\
       0 <= red p <= 255 /\ 0 <= green p <= 255 /\ 0 <= blue p <= 255).
Proof.
  exists (paintedFrame scene light width height).
  split; [apply render_frame |]. split.
  - intros x y Hx Hy. exists (paintAt scene light width height x y).
    split; [apply in_paintedFrame; exists x, y; auto |].
    unfold paintAt.
    destruct (renderPixel_some scene light width height x y) as (c & _ & ->).
    split; reflexivity.
  - intros p Hp. apply in_paintedFrame in Hp.
    destruct Hp as (x & y & Hx & Hy & ->). unfold paintAt.
    destruct (renderPixel_some scene light width height x y) as (c & Hc & ->).
    cbn [px py red green blue].
    split; [exact Hx |]. split; [exact Hy |]. split.
    + exists c. split; [exact Hc |]. repeat split.
    + repeat split; apply clamp_scaled_bounds.
Qed.

(** ** The scene of the program on some rays *)

Create HintDb scene.

#[local] Hint Unfold redSphere blueSphere groundSphere twinSphere farSphere
  unitSphere slantOccluder inverseSphere distantSphere upRay downRay
  asideDownRay asideSlantRay obliqueRay besideRay forwardRay topRay
  slantLight
  negLightDirection : scene.

(** The value of [rayIntersects] when the discriminant is the square
    of [q]. *)
Lemma rayIntersects_root (s : Sphere.t) (ray : Ray.t) (q : R) :
  0 < q ->
  quad_D s ray = q * q ->
  Sphere.rayIntersects s ray = (- quad_b s ray - q) / (2 * quad_a ray).
Proof.
  intros Hq HD.
  rewrite rayIntersects_hit; rewrite HD; [| nra].
  rewrite sqrt_square by lra. reflexivity.
Qed.

(** Writes a quadratic of explicit rays and spheres as arithmetic. *)
Ltac quad_explicit :=
  unfold quad_D, quad_b, quad_a, quad_c; autounfold with scene; vec_simpl.

(** [rayIntersects s ray = -1], from a discriminant that is not positive. *)
Ltac by_discriminant := apply rayIntersects_miss; quad_explicit; lra.

Lemma quotient_eq (n d r : R) : d <> 0 -> n = r * d -> n / d = r.
Proof. intros Hd ->. field. exact Hd. Qed.

(** [rayIntersects s ray = r], from the discriminant [q * q]. *)
Ltac by_root q :=
  rewrite (rayIntersects_root _ _ q);
  [quad_explicit; first [field | apply quotient_eq; lra]
  | lra | quad_explicit; lra].

Lemma spheres_eq : spheres = [redSphere; blueSphere; groundSphere].
Proof. reflexivity. Qed.

(** The camera ray straight up: the ground sphere is behind it. *)
Lemma rayIntersects_red_up : Sphere.rayIntersects redSphere upRay = -1.
Proof. by_discriminant. Qed.

Lemma rayIntersects_blue_up : Sphere.rayIntersects blueSphere upRay = -1.
Proof. by_discriminant. Qed.

Lemma rayIntersects_ground_up : Sphere.rayIntersects groundSphere upRay = -26.
Proof. by_root 24. Qed.

Lemma upRay_misses (s : Sphere.t) :
  In s spheres -> Sphere.rayIntersects s upRay <= 0.
Proof.
  rewrite spheres_eq. cbn [In]. intros [<- | [<- | [<- | []]]].
  - rewrite rayIntersects_red_up. lra.
  - rewrite rayIntersects_blue_up. lra.
  - rewrite rayIntersects_ground_up. lra.
Qed.

(** The camera ray straight down: it hits the ground sphere at [t = 2]. *)
Lemma rayIntersects_red_down : Sphere.rayIntersects redSphere downRay = -1.
Proof. by_discriminant. Qed.

Lemma rayIntersects_blue_down : Sphere.rayIntersects blueSphere downRay = -1.
Proof. by_discriminant. Qed.

Lemma rayIntersects_ground_down : Sphere.rayIntersects groundSphere downRay = 2.
Proof. by_root 24. Qed.

Lemma traceRay_down :
  traceRay spheres downRay =
  mkCast (Fin 2) (Some 2%Z)
    (Some (Vec3.normalised
             (Vec3.subtract (Ray.pointAt downRay 2)
                            (Sphere.center groundSphere)))).
Proof.
  rewrite spheres_eq. unfold traceRay. cbn [traceLoop]. unfold traceStep.
  cbv zeta.
  rewrite rayIntersects_red_down, rayIntersects_blue_down.
  rewrite (ltb_ge 0 (-1)) by lra. cbn [andb].
  rewrite rayIntersects_ground_down.
  rewrite (ltb_lt 0 2) by lra.
  cbn [andb st_t lt_num closestSphereIndex closestNormal].
  reflexivity.
Qed.

(** C1 on the upward camera ray: the ground sphere, behind the camera,
    gives the negative root [-26]; the red sphere gives [-1]. *)
Lemma rayIntersects_quadratic_witness :
  Sphere.rayIntersects groundSphere upRay = -26 /\
  Sphere.rayIntersects redSphere upRay = -1.
Proof.
  split.
  - destruct (rayIntersects_quadratic groundSphere upRay) as [_ Hhit].
    fold (quad_a upRay) (quad_b groundSphere upRay)
         (quad_c groundSphere upRay) in Hhit.
    fold (quad_D groundSphere upRay) in Hhit.
    replace (quad_D groundSphere upRay) with (24 * 24) in Hhit
      by (quad_explicit; lra).
    destruct Hhit as [Hhit _]; [lra |].
    rewrite Hhit, sqrt_square by lra. quad_explicit. field.
  - destruct (rayIntersects_quadratic redSphere upRay) as [Hmiss _].
    apply Hmiss. autounfold with scene. vec_simpl. lra.
Defined.

(** The same sphere twice: both give [t = 2]. *)
Lemma rayIntersects_twin_forward :
  Sphere.rayIntersects twinSphere forwardRay = 2.
Proof. by_root 2. Qed.


(** A ray from above onto the unit sphere. *)
Lemma rayIntersects_unit_top : Sphere.rayIntersects unitSphere topRay = 4.
Proof. by_root 2. Qed.

(** An oblique hit on the unit sphere, at [t = 4.2], with the normal
    [(0.6, 0.8, 0)] and the view direction [(0, 1, 0)]. *)

Lemma normalised_of_unit (v : Vec3.t) :
  Vec3.dot v v = 1 -> Vec3.normalised v = v.
Proof.
  intros Hv. rewrite normalised_scale, Hv, sqrt_1, Rinv_1. apply scale_one.
Qed.

Lemma rayIntersects_unit_oblique :
  Sphere.rayIntersects unitSphere obliqueRay = 4.2.
Proof. by_root 1.6. Qed.

Lemma rayIntersects_slantOccluder_oblique :
  Sphere.rayIntersects slantOccluder obliqueRay = -1.
Proof. by_discriminant. Qed.

Lemma oblique_normal :
  Vec3.normalised
    (Vec3.subtract (Ray.pointAt obliqueRay 4.2) (Sphere.center unitSphere))
  = Vec3.mk 0.6 0.8 0.
Proof.
  replace (Vec3.subtract (Ray.pointAt obliqueRay 4.2) (Sphere.center unitSphere))
    with (Vec3.mk 0.6 0.8 0)
    by (unfold obliqueRay, unitSphere; vec_simpl; apply vec3_eq; lra).
  apply normalised_of_unit. vec_simpl. lra.
Qed.

Lemma oblique_view :
  Vec3.normalised
    (Vec3.subtract (Ray.origin obliqueRay) (Ray.pointAt obliqueRay 4.2))
  = Vec3.mk 0 1 0.
Proof.
  replace (Vec3.subtract (Ray.origin obliqueRay) (Ray.pointAt obliqueRay 4.2))
    with (Vec3.scale (Vec3.mk 0 1 0) 4.2)
    by (unfold obliqueRay; vec_simpl; apply vec3_eq; lra).
  rewrite normalised_scale.
  replace (Vec3.dot (Vec3.scale (Vec3.mk 0 1 0) 4.2)
                    (Vec3.scale (Vec3.mk 0 1 0) 4.2))
    with (4.2 * 4.2) by (vec_simpl; lra).
  rewrite sqrt_square by lra. vec_simpl. apply vec3_eq; field; lra.
Qed.

Lemma traceRay_slant :
  traceRay slantScene obliqueRay =
  mkCast (Fin 4.2) (Some 2%Z) (Some (Vec3.mk 0.6 0.8 0)).
Proof.
  unfold traceRay, slantScene. cbn [traceLoop]. unfold traceStep. cbv zeta.
  rewrite rayIntersects_slantOccluder_oblique, rayIntersects_unit_oblique.
  rewrite (ltb_ge 0 (-1)) by lra. cbn [andb].
  rewrite (ltb_lt 0 4.2) by lra.
  cbn [andb st_t lt_num closestSphereIndex closestNormal].
  change (0 + 1 + 1 <? 0)%Z with false. cbv iota.
  change (0 + 1 + 1)%Z with 2%Z.
  rewrite oblique_normal. reflexivity.
Qed.

Lemma traceRay_solo :
  traceRay soloScene obliqueRay =
  mkCast (Fin 4.2) (Some 0%Z) (Some (Vec3.mk 0.6 0.8 0)).
Proof.
  unfold traceRay, soloScene. cbn [traceLoop]. unfold traceStep. cbv zeta.
  rewrite rayIntersects_unit_oblique.
  rewrite (ltb_lt 0 4.2) by lra.
  cbn [andb st_t lt_num closestSphereIndex closestNormal].
  change (0 <? 0)%Z with false. cbv iota.
  rewrite oblique_normal. reflexivity.
Qed.

(** The shadow ray of that hit: it meets the sphere in the way of the
    light, not the unit sphere. *)
Lemma rayIntersects_slantOccluder_shadow :
  Sphere.rayIntersects slantOccluder
    (Ray.mk (Vec3.add (Ray.pointAt obliqueRay 4.2)
                      (Vec3.scale (Vec3.mk 0.6 0.8 0) 0.01))
            (negLightDirection slantLight)) = 4.
Proof. by_root 2. Qed.

Lemma rayIntersects_unit_shadow :
  Sphere.rayIntersects unitSphere
    (Ray.mk (Vec3.add (Ray.pointAt obliqueRay 4.2)
                      (Vec3.scale (Vec3.mk 0.6 0.8 0) 0.01))
            (negLightDirection slantLight)) <= 0.
Proof. apply rayIntersects_b_nonneg. quad_explicit. lra. Qed.

Lemma diffuseLighting_slant :
  diffuseLighting slantLight (Vec3.mk 0.6 0.8 0) = 0.28.
Proof.
  unfold diffuseLighting, negLightDirection, slantLight. vec_simpl.
  rewrite Rmax_left by lra. lra.
Qed.

Lemma specularLighting_slant :
  specularLighting slantLight (Vec3.mk 0.6 0.8 0) (Vec3.mk 0 1 0)
  = 0.352 ^ 7 * 0.8.
Proof.
  unfold specularLighting, slantLight. vec_simpl.
  rewrite Rmax_left by lra. do 2 f_equal. lra.
Qed.

(** C3 on the oblique hit in the scene of three spheres: the sphere hit
    has index [2], the shadow ray meets the sphere in the way of the
    light, the diffuse term is [0.28] and the specular term
    [0.352 ^ 7 * 0.8]. *)
Lemma rayColor_shading_witness :
  rayColor slantScene slantLight obliqueRay =
  Some (Vec3.mk ((0.2 * 0.28 + 0.2 * (0.352 ^ 7 * 0.8)) * 0.4 * 1.2)
                ((0.4 * 0.28 + 0.4 * (0.352 ^ 7 * 0.8)) * 0.4 * 1.2)
                ((0.6 * 0.28 + 0.6 * (0.352 ^ 7 * 0.8)) * 0.4 * 1.2)).
Proof.
  destruct (rayColor_shading slantScene slantLight obliqueRay _ _ _
              traceRay_slant) as (sphere & Hsphere & H).
  cbv zeta in H.
  destruct H as (Hshadow & _ & _ & _ & c & Hc & _ & _ & _ & Hxyz).
  unfold index, slantScene in Hsphere. cbn in Hsphere.
  injection Hsphere as <-.
  rewrite oblique_view, diffuseLighting_slant, specularLighting_slant in Hxyz.
  rewrite Hc. f_equal. destruct c as [c1 c2 c3].
  cbn [Vec3.x Vec3.y Vec3.z Sphere.color unitSphere] in Hxyz.
  destruct Hxyz as (Hx & Hy & Hz); [| reflexivity |].
  - apply Hshadow. exists slantOccluder. split.
    + left. reflexivity.
    + rewrite rayIntersects_slantOccluder_shadow. lra.
  - rewrite Hx, Hy, Hz. reflexivity.
Defined.

(** C4 on the oblique hit in the scene of the unit sphere alone: index
    [0], no shadow, so the colour is the albedo times the sum of the
    diffuse term [0.28] and the specular term [0.352 ^ 7 * 0.8], which
    is positive. *)
Lemma specular_contribution_witness :
  rayColor soloScene slantLight obliqueRay =
  Some (Vec3.mk (0.2 * 0.28 + 0.2 * (0.352 ^ 7 * 0.8))
                (0.4 * 0.28 + 0.4 * (0.352 ^ 7 * 0.8))
                (0.6 * 0.28 + 0.6 * (0.352 ^ 7 * 0.8))) /\
  0 < 0.352 ^ 7 * 0.8.
Proof.
  split.
  - destruct (specular_contribution soloScene slantLight obliqueRay _ _ _
                traceRay_solo) as (sphere & Hsphere & H).
    cbv zeta in H.
    destruct H as (_ & Hspec & _ & _ & _ & Hsp & c & Hc & Hx & Hy & Hz).
    unfold index, soloScene in Hsphere. cbn in Hsphere.
    injection Hsphere as <-.
    assert (Hshadow :
              lt_num 0
                (t (traceRay soloScene
                      (Ray.mk (Vec3.add (Ray.pointAt obliqueRay 4.2)
                                        (Vec3.scale (Vec3.mk 0.6 0.8 0) 0.01))
                              (negLightDirection slantLight)))) = false).
    { apply not_true_is_false. intros Htrue.
      apply traceRay_t_pos in Htrue. destruct Htrue as (s & [<- | []] & Hs).
      pose proof rayIntersects_unit_shadow. lra. }
    rewrite <- Hsp, <- Hspec, oblique_view, specularLighting_slant in Hx, Hy, Hz.
    rewrite Hshadow, diffuseLighting_slant in Hx, Hy, Hz.
    change (0 =? 2)%Z with false in Hx, Hy, Hz. cbv iota in Hx, Hy, Hz.
    rewrite Hc. f_equal. destruct c as [c1 c2 c3].
    cbn [Vec3.x Vec3.y Vec3.z Sphere.color unitSphere] in Hx, Hy, Hz.
    apply vec3_eq; lra.
  - apply Rmult_lt_0_compat; [apply pow_lt |]; lra.
Defined.

(** The downward ray beside the spheres misses the three of them. *)
Lemma asideDownRay_misses (s : Sphere.t) :
  In s spheres -> Sphere.rayIntersects s asideDownRay <= 0.
Proof.
  rewrite spheres_eq. cbn [In].
  intros [<- | [<- | [<- | []]]];
    (replace (Sphere.rayIntersects _ asideDownRay) with (-1);
     [lra | symmetry; by_discriminant]).
Qed.

(** The ray beside the spheres with direction [(0, -3, 3)]. *)
Lemma asideSlantRay_misses (s : Sphere.t) :
  In s spheres -> Sphere.rayIntersects s asideSlantRay <= 0.
Proof.
  rewrite spheres_eq. cbn [In].
  intros [<- | [<- | [<- | []]]];
    (replace (Sphere.rayIntersects _ asideSlantRay) with (-1);
     [lra | symmetry; by_discriminant]).
Qed.

Lemma sqrt_18 : sqrt (0 * 0 + -3 * -3 + 3 * 3) = 3 * sqrt 2.
Proof.
  replace (0 * 0 + -3 * -3 + 3 * 3) with ((3 * 3) * 2) by lra.
  rewrite sqrt_mult by lra. rewrite sqrt_square by lra. reflexivity.
Qed.

Lemma acos_asideSlant :
  acos (-3 / sqrt (0 * 0 + -3 * -3 + 3 * 3)) / PI = 3 / 4.
Proof.
  assert (Hs : 0 < sqrt 2) by (apply sqrt_lt_R0; lra).
  rewrite sqrt_18.
  replace (-3 / (3 * sqrt 2)) with (- / sqrt 2) by (field; lra).
  rewrite acos_opp, acos_inv_sqrt2. field. apply PI_neq0.
Qed.

(** C5 in the scene of the program: the ray beside the spheres with
    the direction [(0, -3, 3)], which is not a unit vector, has
    [v = 3/4] and the colour [(0.35, 0.45, 0.625)]; the upward camera
    ray gets the sky colour, the downward ray beside the spheres the
    ground colour. *)
Lemma rayColor_background_witness :
  rayColor spheres lightDirection asideSlantRay =
  Some (Vec3.mk 0.35 0.45 0.625) /\
  rayColor spheres lightDirection upRay = Some (Vec3.mk 0.5 0.9 1.0) /\
  rayColor spheres lightDirection asideDownRay = Some (Vec3.mk 0.3 0.3 0.5).
Proof.
  split; [| split].
  - destruct (rayColor_background spheres lightDirection asideSlantRay
                asideSlantRay_misses) as (Hgen & _).
    assert (Hnz : Ray.direction asideSlantRay <> Vec3.mk 0 0 0).
    { unfold asideSlantRay. cbn [Ray.direction]. intros H.
      injection H as H _. lra. }
    specialize (Hgen Hnz). cbv zeta in Hgen.
    destruct Hgen as (_ & _ & _ & _ & _ & Hc).
    rewrite Hc. unfold asideSlantRay. cbn [Ray.direction Vec3.x Vec3.y Vec3.z].
    rewrite acos_asideSlant. f_equal. apply vec3_eq; lra.
  - destruct (rayColor_background spheres lightDirection upRay upRay_misses)
      as (_ & Hup & _).
    apply Hup. reflexivity.
  - destruct (rayColor_background spheres lightDirection asideDownRay
                asideDownRay_misses)
      as (_ & _ & Hdown & _).
    apply Hdown. reflexivity.
Defined.

(** C7 on a sphere of radius [1] at distance [5]: the ray aimed at its
    centre gets [5 - 1], the upward ray, whose line stays outside, [-1]. *)

Lemma rayIntersects_center_and_miss_witness :
  Sphere.rayIntersects farSphere aimedRay = 5 - 1 /\
  Sphere.rayIntersects farSphere upRay = -1.
Proof.
  assert (Hdist :
            sqrt (Vec3.dot
                    (Vec3.subtract (Sphere.center farSphere) (Ray.origin aimedRay))
                    (Vec3.subtract (Sphere.center farSphere) (Ray.origin aimedRay)))
            = 5).
  { unfold farSphere, aimedRay. vec_simpl.
    replace ((0 - 0) * (0 - 0) + (0 - 0) * (0 - 0) + (-5 - 0) * (-5 - 0))
      with (5 * 5) by lra.
    apply sqrt_square. lra. }
  split.
  - destruct (rayIntersects_center_and_miss farSphere aimedRay) as [Haim _].
    cbv zeta in Haim. rewrite Hdist in Haim.
    apply Haim.
    + unfold farSphere. cbn [Sphere.radius]. lra.
    + unfold farSphere. cbn [Sphere.radius]. lra.
    + reflexivity.
  - destruct (rayIntersects_center_and_miss farSphere upRay) as [_ Hmiss].
    apply Hmiss. intros t0. unfold farSphere, upRay. vec_simpl. nra.
Defined.

(** C8 on a frame of width [0] and on a frame of height [-1]. *)
Lemma render_empty_frame_witness :
  render spheres lightDirection 0 4 = Some [] /\
  render spheres lightDirection 4 (-1) = Some [].
Proof.
  split.
  - apply render_empty_frame. left. lia.
  - apply render_empty_frame. right. lia.
Defined.

(** C9 on two horizontal rays: both normalised directions have [y = 0]. *)
Lemma backgroundColour_latitude_only_witness :
  backgroundColour eastRay = backgroundColour southRay.
Proof.
  apply (backgroundColour_latitude_only eastRay southRay).
  unfold eastRay, southRay, Vec3.normalised.
  cbn [Ray.direction Vec3.x Vec3.y Vec3.z].
  rewrite !Rdiv_0_l. reflexivity.
Defined.

(** C10 on the downward camera ray. *)
Lemma traceRay_result_safe_witness :
  exists c : Vec3.t, rayColor spheres lightDirection downRay = Some c.
Proof.
  destruct (traceRay_result_safe spheres lightDirection downRay)
    as (_ & _ & _ & Hc).
  exact Hc.
Defined.

(** C6 on the pixel [(0, 1)] of a frame of two by two. *)
Lemma render_channels_witness :
  exists (painted : list Paint) (p : Paint),
    render spheres lightDirection 2 2 = Some painted /\
    In p painted /\ px p = 0%Z /\ py p = 1%Z /\ 0 <= blue p <= 255.
Proof.
  destruct (render_channels spheres lightDirection 2 2)
    as (painted & Hr & Hall & Hin).
  destruct (Hall 0%Z 1%Z) as (p & Hp & Hx & Hy); [lia | lia |].
  exists painted, p.
  destruct (Hin p Hp) as (_ & _ & _ & _ & _ & Hb).
  repeat split; try assumption; apply Hb.
Defined.

(** ** A pixel of a frame of two by two *)

Lemma inv_sqrt2_sq : / sqrt 2 * / sqrt 2 = / 2.
Proof.
  rewrite <- Rinv_mult. rewrite sqrt_sqrt by lra. reflexivity.
Qed.

(** The pixel [(0, 1)] has [u = -1] and [v = 0]: its ray is horizontal. *)
Lemma leftRay_direction :
  Ray.direction leftRay = Vec3.mk (- / sqrt 2) 0 (- / sqrt 2).
Proof.
  unfold leftRay. cbn [Ray.direction]. unfold Vec3.normalised.
  cbn [Vec3.x Vec3.y Vec3.z].
  replace ((0 / 2 * 2 - 2 / 2) ^ 2 + (- (1 / 2 * 2 - 2 / 2)) ^ 2 + (- (1)) ^ 2)
    with 2 by field.
  assert (sqrt 2 <> 0) by (apply Rgt_not_eq, sqrt_lt_R0; lra).
  apply vec3_eq; field; assumption.
Qed.

Lemma leftRay_misses (s : Sphere.t) :
  In s spheres -> Sphere.rayIntersects s leftRay <= 0.
Proof.
  pose proof inv_sqrt2_sq as Hk.
  intros Hin.
  assert (HD : quad_D s leftRay <= 0).
  { unfold quad_D, quad_b, quad_a, quad_c. rewrite leftRay_direction.
    unfold leftRay. set (k := / sqrt 2) in *.
    unfold spheres in Hin. cbn [In] in Hin.
    destruct Hin as [<- | [<- | [<- | []]]]; vec_simpl; nra. }
  rewrite (rayIntersects_miss s leftRay HD). lra.
Qed.

(** Half way between sky and ground. *)
Lemma leftRay_colour :
  rayColor spheres lightDirection leftRay = Some (Vec3.mk 0.4 0.6 0.75).
Proof.
  rewrite (rayColor_miss _ _ _ leftRay_misses). f_equal.
  unfold backgroundColour. cbv zeta. rewrite leftRay_direction.
  unfold Vec3.normalised. cbn [Vec3.x Vec3.y Vec3.z].
  rewrite Rdiv_0_l, acos_0.
  unfold skyColor, groundColor, Vec3.add, Vec3.scale.
  cbn [Vec3.x Vec3.y Vec3.z].
  replace (PI / 2 / PI) with (1 / 2) by (field; apply PI_neq0).
  f_equal; lra.
Qed.

Lemma not_integer_191_25 : ~ exists k : Z, 191.25 = IZR k.
Proof.
  intros [k Hk].
  assert (H : IZR 765 = IZR (4 * k)) by (rewrite mult_IZR; lra).
  apply eq_IZR in H. lia.
Qed.

(** Against C6 as stated: in the frame of two by two of the program's
    scene, the blue channel painted at [(0, 1)] is [191.25], which is
    not an integer. *)
Lemma render_channel_not_integer :
  exists (painted : list Paint) (p : Paint),
    render spheres lightDirection 2 2 = Some painted /\
    In p painted /\ px p = 0%Z /\ py p = 1%Z /\
    blue p = 191.25 /\ ~ exists k : Z, blue p = IZR k.
Proof.
  exists (paintedFrame spheres lightDirection 2 2),
         (paintAt spheres lightDirection 2 2 0 1).
  split; [apply render_frame |].
  split; [apply in_paintedFrame; exists 0%Z, 1%Z; repeat split; lia |].
  assert (Hp : paintAt spheres lightDirection 2 2 0 1 =
               mkPaint 0 1 (0.4 * 255) (0.6 * 255) (0.75 * 255)).
  { unfold paintAt, renderPixel. cbv zeta. fold leftRay.
    rewrite leftRay_colour. cbn [bind Vec3.x Vec3.y Vec3.z].
    rewrite !Rmax_right by lra. rewrite !Rmin_right by lra. reflexivity. }
  rewrite Hp. cbn [px py blue].
  replace (0.75 * 255) with 191.25 by lra.
  repeat split. apply not_integer_191_25.
Qed.

(** * Further properties of the vector, ray and sphere classes *)

(** ** Vec3 *)

Lemma nonzero_dot_pos (v : Vec3.t) :
  v <> Vec3.mk 0 0 0 -> 0 < Vec3.dot v v.
Proof.
  intros Hv. pose proof (dot_self_nonneg v) as H.
  destruct (Req_dec (Vec3.dot v v) 0) as [H0 | H0]; [| lra].
  exfalso. apply Hv. apply dot_self_zero. exact H0.
Qed.

(** X1.  [normalised] of a vector that is not the zero vector has length
    [1] and is the vector times a positive number. *)
Theorem normalised_unit_length (v : Vec3.t) :
  v <> Vec3.mk 0 0 0 ->
  Vec3.dot (Vec3.normalised v) (Vec3.normalised v) = 1 /\
  exists k : R, 0 < k /\ Vec3.normalised v = Vec3.scale v k.
Proof.
  intros Hv. pose proof (nonzero_dot_pos v Hv) as Hpos. split.
  - apply normalised_unit. exact Hpos.
  - exists (/ sqrt (Vec3.dot v v)). split.
    + apply Rinv_0_lt_compat, sqrt_lt_R0. exact Hpos.
    + apply normalised_scale.
Qed.

Lemma vec_3_4_0_nonzero : Vec3.mk 3 4 0 <> Vec3.mk 0 0 0.
Proof. intros H. injection H as H3 H4. lra. Qed.

Lemma normalised_unit_length_witness :
  Vec3.dot (Vec3.normalised (Vec3.mk 3 4 0))
           (Vec3.normalised (Vec3.mk 3 4 0)) = 1.
Proof.
  apply (normalised_unit_length (Vec3.mk 3 4 0)). exact vec_3_4_0_nonzero.
Defined.

(** X2.  Normalising twice is normalising once ([backgroundColour]
    normalises a direction that [render] has normalised already). *)
Theorem normalised_idempotent (v : Vec3.t) :
  v <> Vec3.mk 0 0 0 ->
  Vec3.normalised (Vec3.normalised v) = Vec3.normalised v.
Proof.
  intros Hv. rewrite (normalised_scale (Vec3.normalised v)).
  rewrite (normalised_unit v (nonzero_dot_pos v Hv)).
  rewrite sqrt_1, Rinv_1. apply scale_one.
Qed.

Lemma normalised_idempotent_witness :
  Vec3.normalised (Vec3.normalised (Vec3.mk 3 4 0)) =
  Vec3.normalised (Vec3.mk 3 4 0).
Proof.
  apply normalised_idempotent. exact vec_3_4_0_nonzero.
Defined.

(** X3.  [normalised] does not see a positive factor of its argument. *)
Theorem normalised_scale_invariant (v : Vec3.t) (k : R) :
  v <> Vec3.mk 0 0 0 -> 0 < k ->
  Vec3.normalised (Vec3.scale v k) = Vec3.normalised v.
Proof.
  intros Hv Hk. pose proof (nonzero_dot_pos v Hv) as Hpos.
  rewrite !normalised_scale.
  assert (Hd : Vec3.dot (Vec3.scale v k) (Vec3.scale v k)
               = Vec3.dot v v * (k * k)).
  { destruct v as [a b c]. vec_simpl. ring. }
  rewrite Hd, sqrt_mult by nra. rewrite sqrt_square by lra.
  rewrite scale_scale. f_equal.
  assert (sqrt (Vec3.dot v v) <> 0) by (apply Rgt_not_eq, sqrt_lt_R0; exact Hpos).
  field. split; lra.
Qed.

Lemma normalised_scale_invariant_witness :
  Vec3.normalised (Vec3.scale (Vec3.mk 3 4 0) 2) =
  Vec3.normalised (Vec3.mk 3 4 0).
Proof.
  apply normalised_scale_invariant; [exact vec_3_4_0_nonzero | lra].
Defined.

(** X4.  [subtract] undoes [add] and [add] undoes [subtract]. *)
Theorem add_subtract_round_trip (a b : Vec3.t) :
  Vec3.subtract (Vec3.add a b) b = a /\
  Vec3.add (Vec3.subtract a b) b = a /\
  Vec3.subtract a a = Vec3.mk 0 0 0.
Proof.
  destruct a as [a1 a2 a3], b as [b1 b2 b3]. vec_simpl.
  repeat split; apply vec3_eq; ring.
Qed.

(** X5.  [dot] is symmetric and linear in its first argument over
    [scale], [add] and [subtract]. *)
Theorem dot_symmetric_bilinear (a b c : Vec3.t) (k : R) :
  Vec3.dot a b = Vec3.dot b a /\
  Vec3.dot (Vec3.scale a k) b = k * Vec3.dot a b /\
  Vec3.dot (Vec3.add a b) c = Vec3.dot a c + Vec3.dot b c /\
  Vec3.dot (Vec3.subtract a b) c = Vec3.dot a c - Vec3.dot b c.
Proof.
  destruct a as [a1 a2 a3], b as [b1 b2 b3], c as [c1 c2 c3]. vec_simpl.
  repeat split; ring.
Qed.

(** ** Ray *)

(** X6.  [pointAt 0] is the origin, [pointAt t] is the origin moved by
    [t] times the direction, and going on from [pointAt s] by [t] is
    [pointAt (s + t)]. *)
Theorem pointAt_composes (ray : Ray.t) (s t0 : R) :
  Ray.pointAt ray 0 = Ray.origin ray /\
  Ray.pointAt (Ray.mk (Ray.pointAt ray s) (Ray.direction ray)) t0 =
  Ray.pointAt ray (s + t0) /\
  Vec3.subtract (Ray.pointAt ray t0) (Ray.origin ray) =
  Vec3.scale (Ray.direction ray) t0.
Proof.
  destruct ray as [[ox oy oz] [dx dy dz]]. vec_simpl.
  repeat split; apply vec3_eq; ring.
Qed.

(** ** Sphere.rayIntersects *)






(** X10.  At a positive value of [rayIntersects] the normal
    [normalised (hitPoint - center)] points against the direction of
    the ray. *)
Theorem hit_normal_faces_ray (s : Sphere.t) (ray : Ray.t) :
  0 < Sphere.rayIntersects s ray ->
  let hitPoint := Ray.pointAt ray (Sphere.rayIntersects s ray) in
  let normal := Vec3.normalised (Vec3.subtract hitPoint (Sphere.center s)) in
  Vec3.dot normal (Ray.direction ray) < 0.
Proof.
  intros Hpos. cbv zeta. pose proof (rayIntersects_pos_D s ray Hpos) as HD.
  pose proof (quad_D_pos_a_pos s ray HD) as Ha.
  pose proof (hit_point_on_sphere s ray HD) as Hon. cbv zeta in Hon.
  pose proof (quad_D_pos_radius s ray HD) as Hr.
  rewrite normalised_scale, Hon.
  assert (Hw : Vec3.dot (Vec3.subtract
                           (Ray.pointAt ray (Sphere.rayIntersects s ray))
                           (Sphere.center s))
                        (Ray.direction ray)
               = - sqrt (quad_D s ray) / 2).
  { rewrite (rayIntersects_hit s ray HD).
    set (q := sqrt (quad_D s ray)).
    set (t0 := (- quad_b s ray - q) / (2 * quad_a ray)).
    assert (Ht : 2 * quad_a ray * t0 + quad_b s ray = - q)
      by (unfold t0; field; lra).
    clearbody t0. unfold quad_a, quad_b in Ht.
    destruct ray as [[ox oy oz] [dx dy dz]], s as [[cx cy cz] r col].
    revert Ht. vec_simpl. intros Ht. lra. }
  assert (Hscale : forall (w d : Vec3.t) (c : R),
             Vec3.dot (Vec3.scale w c) d = c * Vec3.dot w d).
  { intros [w1 w2 w3] [d1 d2 d3] c. vec_simpl. ring. }
  rewrite Hscale, Hw.
  assert (Hq : 0 < sqrt (quad_D s ray)) by (apply sqrt_lt_R0; exact HD).
  assert (Hi : 0 < / sqrt (Sphere.radius s * Sphere.radius s))
    by (apply Rinv_0_lt_compat, sqrt_lt_R0; exact Hr).
  nra.
Qed.

Lemma hit_normal_faces_ray_witness :
  Vec3.dot
    (Vec3.normalised
       (Vec3.subtract (Ray.pointAt downRay (Sphere.rayIntersects groundSphere downRay))
                      (Sphere.center groundSphere)))
    (Ray.direction downRay) < 0.
Proof.
  apply hit_normal_faces_ray. rewrite rayIntersects_ground_down. lra.
Defined.

(** X11.  A sphere whose centre is not ahead of the origin of the ray
    (the vector to the centre makes no acute angle with the direction)
    gives no positive value. *)
Theorem rayIntersects_sphere_behind (s : Sphere.t) (ray : Ray.t) :
  Vec3.dot (Vec3.subtract (Sphere.center s) (Ray.origin ray))
           (Ray.direction ray) <= 0 ->
  Sphere.rayIntersects s ray <= 0.
Proof.
  intros Hbehind. apply rayIntersects_b_nonneg. unfold quad_b.
  destruct ray as [[ox oy oz] [dx dy dz]], s as [[cx cy cz] r col].
  revert Hbehind. vec_simpl. intros Hbehind. lra.
Qed.

Lemma rayIntersects_sphere_behind_witness :
  Sphere.rayIntersects groundSphere upRay <= 0.
Proof.
  apply rayIntersects_sphere_behind. unfold groundSphere, upRay. vec_simpl. lra.
Defined.

(** X13.  A ray whose direction is the zero vector gets [-1] from every
    sphere, and [{ t: -1 }] from [traceRay] in every scene. *)
Theorem zero_direction_never_hits (scene : list Sphere.t) (o : Vec3.t) :
  let ray := Ray.mk o (Vec3.mk 0 0 0) in
  (forall s : Sphere.t, Sphere.rayIntersects s ray = -1) /\
  traceRay scene ray = mkCast (Fin (-1)) None None.
Proof.
  cbv zeta.
  assert (Hmiss : forall s, Sphere.rayIntersects s (Ray.mk o (Vec3.mk 0 0 0)) = -1).
  { intros s. apply rayIntersects_miss.
    destruct o as [ox oy oz], s as [[cx cy cz] r col].
    unfold quad_D, quad_b, quad_a, quad_c. vec_simpl. lra. }
  split; [exact Hmiss |].
  destruct (traceRay_cases (Ray.mk o (Vec3.mk 0 0 0)) scene)
    as [[_ Hres] | (k & sb & _ & Hpos & _)]; [exact Hres |].
  unfold hit_t in Hpos. rewrite Hmiss in Hpos. lra.
Qed.

(** ** The lighting terms *)

Lemma dot_unit_le_1 (u v : Vec3.t) :
  Vec3.dot u u = 1 -> Vec3.dot v v = 1 -> -1 <= Vec3.dot u v <= 1.
Proof.
  intros Hu Hv. pose proof (cauchy_schwarz u v) as H. rewrite Hu, Hv in H.
  nra.
Qed.

Lemma dot_scale_l (w d : Vec3.t) (c : R) :
  Vec3.dot (Vec3.scale w c) d = c * Vec3.dot w d.
Proof. destruct w as [w1 w2 w3], d as [d1 d2 d3]. vec_simpl. ring. Qed.

Lemma dot_negLight (light n : Vec3.t) :
  Vec3.dot n (negLightDirection light) = - Vec3.dot n light.
Proof.
  destruct n as [a b c], light as [d e f]. unfold negLightDirection.
  vec_simpl. ring.
Qed.

Lemma diffuseLighting_bounds (light n : Vec3.t) :
  Vec3.dot light light = 1 ->
  Vec3.dot n n = 1 ->
  0 <= diffuseLighting light n <= 1.
Proof.
  intros Hl Hn. unfold diffuseLighting. rewrite dot_negLight.
  pose proof (dot_unit_le_1 n light Hn Hl) as Hb.
  split; [apply Rmax_r | apply Rmax_lub; lra].
Qed.

(** The reflection of a unit light direction about a unit normal is a
    unit vector. *)
Lemma reflection_unit (light n : Vec3.t) :
  Vec3.dot light light = 1 ->
  Vec3.dot n n = 1 ->
  let reflection :=
    Vec3.subtract (Vec3.scale n (2 * Vec3.dot n light)) light in
  Vec3.dot reflection reflection = 1.
Proof.
  intros Hl Hn. cbv zeta.
  destruct n as [a b c], light as [d e f]. revert Hl Hn. vec_simpl.
  intros Hl Hn.
  set (p := a * d + b * e + c * f).
  transitivity (4 * p * p * (a * a + b * b + c * c) - 4 * p * p
                + (d * d + e * e + f * f)).
  - unfold p. ring.
  - rewrite Hl, Hn. ring.
Qed.

Lemma specularLighting_bounds (light n view : Vec3.t) :
  Vec3.dot light light = 1 ->
  Vec3.dot n n = 1 ->
  Vec3.dot view view = 1 ->
  0 <= specularLighting light n view <= 0.8.
Proof.
  intros Hl Hn Hv. unfold specularLighting. cbv zeta.
  pose proof (reflection_unit light n Hl Hn) as Hr. cbv zeta in Hr.
  pose proof (dot_unit_le_1 _ view Hr Hv) as Hb.
  set (m := Rmax _ 0).
  assert (Hm : 0 <= m <= 1).
  { unfold m. split; [apply Rmax_r | apply Rmax_lub; lra]. }
  assert (Hp0 : 0 <= m ^ 7) by (apply pow_le; lra).
  assert (Hp1 : m ^ 7 <= 1).
  { rewrite <- (pow1 7). apply pow_incr. lra. }
  lra.
Qed.

(** The light of the program is a unit vector. *)
Lemma lightDirection_unit : Vec3.dot lightDirection lightDirection = 1.
Proof.
  unfold lightDirection. apply normalised_unit. vec_simpl. lra.
Qed.

(** X14.  For a unit light direction and a unit normal,
    [diffuseLighting] is between [0] and [1]; it is [0] on a surface
    turned away from the light and [- dot(normal, lightDirection)] on a
    surface turned towards it. *)
Theorem diffuseLighting_range (light n : Vec3.t) :
  Vec3.dot light light = 1 ->
  Vec3.dot n n = 1 ->
  0 <= diffuseLighting light n <= 1 /\
  (0 <= Vec3.dot n light -> diffuseLighting light n = 0) /\
  (Vec3.dot n light <= 0 -> diffuseLighting light n = - Vec3.dot n light).
Proof.
  intros Hl Hn. split; [apply diffuseLighting_bounds; assumption |].
  unfold diffuseLighting. rewrite dot_negLight. split; intros H.
  - apply Rmax_right. lra.
  - apply Rmax_left. lra.
Qed.

Lemma diffuseLighting_range_witness :
  0 <= diffuseLighting lightDirection (Vec3.mk 0 1 0) <= 1.
Proof.
  apply (diffuseLighting_range lightDirection (Vec3.mk 0 1 0)).
  - exact lightDirection_unit.
  - vec_simpl. lra.
Defined.

(** X15.  For unit light direction, normal and view direction,
    [specularLighting] is between [0] and [0.8]. *)
Theorem specularLighting_range (light n view : Vec3.t) :
  Vec3.dot light light = 1 ->
  Vec3.dot n n = 1 ->
  Vec3.dot view view = 1 ->
  0 <= specularLighting light n view <= 0.8 /\
  (Vec3.dot
     (Vec3.subtract (Vec3.scale n (2 * Vec3.dot n light)) light) view <= 0 ->
   specularLighting light n view = 0).
Proof.
  intros Hl Hn Hv. split; [apply specularLighting_bounds; assumption |].
  intros Hback. unfold specularLighting. cbv zeta.
  rewrite Rmax_right by exact Hback. ring.
Qed.

Lemma specularLighting_range_witness :
  0 <= specularLighting lightDirection (Vec3.mk 0 1 0) (Vec3.mk 0 0 1) <= 0.8.
Proof.
  apply specularLighting_range.
  - exact lightDirection_unit.
  - vec_simpl. lra.
  - vec_simpl. lra.
Defined.

(** ** The colours *)

Lemma backgroundColour_bounds (ray : Ray.t) :
  let c := backgroundColour ray in
  0.3 <= Vec3.x c <= 0.5 /\
  0.3 <= Vec3.y c <= 0.9 /\
  0.5 <= Vec3.z c <= 1.
Proof.
  cbv zeta. unfold backgroundColour. cbv zeta.
  set (theta := acos _).
  assert (Hth : 0 <= theta <= PI) by apply acos_bound.
  pose proof PI_RGT_0 as Hpi.
  assert (Hv : 0 <= theta / PI <= 1).
  { split.
    - apply Rmult_le_pos; [lra | left; apply Rinv_0_lt_compat; lra].
    - apply (Rmult_le_reg_r PI); [lra |].
      unfold Rdiv. rewrite Rmult_assoc, Rinv_l by lra. lra. }
  set (v := theta / PI) in *.
  unfold skyColor, groundColor. vec_simpl. lra.
Qed.

(** X16.  For a ray whose direction is not the zero vector, every
    channel of [backgroundColour] lies between the ground value and the
    sky value of that channel: red in [[0.3, 0.5]], green in
    [[0.3, 0.9]], blue in [[0.5, 1]]. *)
Theorem backgroundColour_range (ray : Ray.t) :
  Ray.direction ray <> Vec3.mk 0 0 0 ->
  let c := backgroundColour ray in
  Vec3.x groundColor <= Vec3.x c <= Vec3.x skyColor /\
  Vec3.y groundColor <= Vec3.y c <= Vec3.y skyColor /\
  Vec3.z groundColor <= Vec3.z c <= Vec3.z skyColor /\
  0.3 <= Vec3.x c <= 0.5 /\
  0.3 <= Vec3.y c <= 0.9 /\
  0.5 <= Vec3.z c <= 1.
Proof.
  intros _.
  pose proof (backgroundColour_bounds ray) as H. cbv zeta in *.
  unfold groundColor, skyColor. cbn [Vec3.x Vec3.y Vec3.z]. lra.
Qed.

Lemma backgroundColour_range_witness :
  0.5 <= Vec3.z (backgroundColour asideSlantRay) <= 1.
Proof.
  apply (backgroundColour_range asideSlantRay).
  unfold asideSlantRay. cbn [Ray.direction]. intros H.
  injection H as H _. lra.
Defined.

(** X17.  On a hit, with a unit light direction, a channel of the
    colour of [rayColor] whose albedo is not negative is between [0] and
    [2.16] times that albedo ([1 + 0.8] for the two terms, times
    [1.2]): it can exceed [1] before [render] clamps it. *)
Theorem rayColor_hit_range (scene : list Sphere.t) (light : Vec3.t)
  (ray : Ray.t) (tb : R) (i : Z) (n : Vec3.t) :
  Vec3.dot light light = 1 ->
  traceRay scene ray = mkCast (Fin tb) (Some i) (Some n) ->
  exists (sphere : Sphere.t) (c : Vec3.t),
    index scene i = Some sphere /\
    rayColor scene light ray = Some c /\
    (0 <= Vec3.x (Sphere.color sphere) ->
     0 <= Vec3.x c <= 2.16 * Vec3.x (Sphere.color sphere)) /\
    (0 <= Vec3.y (Sphere.color sphere) ->
     0 <= Vec3.y c <= 2.16 * Vec3.y (Sphere.color sphere)) /\
    (0 <= Vec3.z (Sphere.color sphere) ->
     0 <= Vec3.z c <= 2.16 * Vec3.z (Sphere.color sphere)).
Proof.
  intros Hl Hres.
  destruct (traceRay_hit_inv scene ray tb i n Hres)
    as (k & sb & -> & Hk & Htb & Hpos & Hn).
  pose proof (rayColor_hit scene light ray tb k n sb Hres Hk Hpos) as Hc.
  cbv zeta in Hc.
  assert (Hnu : Vec3.dot n n = 1).
  { rewrite Hn. apply hit_normal_unit. unfold hit_t. rewrite <- Htb. exact Hpos. }
  assert (Hvu : Vec3.dot
                  (Vec3.normalised
                     (Vec3.subtract (Ray.origin ray) (Ray.pointAt ray tb)))
                  (Vec3.normalised
                     (Vec3.subtract (Ray.origin ray) (Ray.pointAt ray tb))) = 1).
  { rewrite Htb. apply view_direction_unit. rewrite <- Htb. exact Hpos. }
  pose proof (diffuseLighting_bounds light n Hl Hnu) as Hd.
  pose proof (specularLighting_bounds light n _ Hl Hnu Hvu) as Hs.
  set (d := diffuseLighting light n) in *.
  set (sp := specularLighting light n _) in *.
  exists sb. eexists. split; [rewrite index_of_nat; exact Hk |].
  split; [exact Hc |].
  destruct (Sphere.color sb) as [a1 a2 a3].
  destruct (lt_num 0 _), (Z.of_nat k =? 2)%Z; vec_simpl;
    repeat split; intros; nra.
Qed.

Lemma rayColor_hit_range_witness :
  exists c : Vec3.t,
    rayColor spheres lightDirection downRay = Some c /\
    0 <= Vec3.y c <= 2.16 * (240 / 255).
Proof.
  destruct (rayColor_hit_range spheres lightDirection downRay _ _ _
              lightDirection_unit traceRay_down)
    as (sphere & c & Hsphere & Hc & _ & Hy & _).
  unfold index in Hsphere. rewrite spheres_eq in Hsphere. cbn in Hsphere.
  injection Hsphere as <-.
  exists c. split; [exact Hc |].
  apply Hy. unfold groundSphere. vec_simpl. lra.
Defined.

(** X18.  Where the surface is turned towards the light
    ([dot(normal, negLightDirection) >= 0]), the shadow ray of a hit
    has no positive intersection value with the sphere that was hit:
    a sphere does not shadow its own lit side. *)
Theorem shadowRay_clears_lit_sphere (light : Vec3.t) (s : Sphere.t)
  (ray : Ray.t) :
  0 < Sphere.rayIntersects s ray ->
  let tb := Sphere.rayIntersects s ray in
  let n := Vec3.normalised
             (Vec3.subtract (Ray.pointAt ray tb) (Sphere.center s)) in
  let shadowRay :=
    Ray.mk (Vec3.add (Ray.pointAt ray tb) (Vec3.scale n 0.01))
           (negLightDirection light) in
  0 <= Vec3.dot n (negLightDirection light) ->
  Sphere.rayIntersects s shadowRay <= 0.
Proof.
  intros Hpos. cbv zeta. intros Hlit.
  pose proof (rayIntersects_pos_D s ray Hpos) as HD.
  pose proof (hit_point_on_sphere s ray HD) as Hon. cbv zeta in Hon.
  pose proof (quad_D_pos_radius s ray HD) as Hr.
  set (P := Ray.pointAt ray (Sphere.rayIntersects s ray)) in *.
  set (d := negLightDirection light) in *.
  rewrite normalised_scale in *. rewrite Hon in *.
  set (k := / sqrt (Sphere.radius s * Sphere.radius s)) in *.
  assert (Hk : 0 < k) by (apply Rinv_0_lt_compat, sqrt_lt_R0; exact Hr).
  rewrite dot_scale_l in Hlit.
  apply rayIntersects_b_nonneg.
  unfold quad_b. cbn [Ray.origin Ray.direction].
  assert (Hw : 0 <= Vec3.dot (Vec3.subtract P (Sphere.center s)) d) by nra.
  clearbody P d. clear - Hw Hk. clearbody k.
  destruct P as [p1 p2 p3], d as [d1 d2 d3], s as [[c1 c2 c3] r col].
  revert Hw. vec_simpl. intros Hw. nra.
Qed.

Lemma shadowRay_clears_lit_sphere_witness :
  Sphere.rayIntersects unitSphere
    (Ray.mk (Vec3.add (Ray.pointAt topRay (Sphere.rayIntersects unitSphere topRay))
               (Vec3.scale
                  (Vec3.normalised
                     (Vec3.subtract
                        (Ray.pointAt topRay (Sphere.rayIntersects unitSphere topRay))
                        (Sphere.center unitSphere)))
                  0.01))
            (negLightDirection (Vec3.mk 0 (-1) 0))) <= 0.
Proof.
  apply (shadowRay_clears_lit_sphere (Vec3.mk 0 (-1) 0) unitSphere topRay).
  - rewrite rayIntersects_unit_top. lra.
  - rewrite rayIntersects_unit_top.
    replace (Vec3.subtract (Ray.pointAt topRay 4) (Sphere.center unitSphere))
      with (Vec3.mk 0 1 0)
      by (unfold topRay, unitSphere; vec_simpl; apply vec3_eq; lra).
    rewrite normalised_up. unfold negLightDirection. vec_simpl. lra.
Defined.

(** X19.  For a ray with a unit direction and [t > 0], the point
    [pointAt t] is at distance [t] from the origin, and the view
    direction of [rayColor], [normalised (origin - pointAt t)], is the
    direction of the ray reversed. *)
Theorem viewDirection_reverses_unit_ray (ray : Ray.t) (t0 : R) :
  Vec3.dot (Ray.direction ray) (Ray.direction ray) = 1 ->
  0 < t0 ->
  let back := Vec3.subtract (Ray.origin ray) (Ray.pointAt ray t0) in
  sqrt (Vec3.dot back back) = t0 /\
  Vec3.normalised back = Vec3.scale (Ray.direction ray) (-1).
Proof.
  intros Hd Ht. cbv zeta.
  pose proof (view_vector_dot ray t0) as Hw. cbv zeta in Hw.
  unfold quad_a in Hw. rewrite Hd, Rmult_1_r in Hw.
  assert (Hs : sqrt (Vec3.dot
                       (Vec3.subtract (Ray.origin ray) (Ray.pointAt ray t0))
                       (Vec3.subtract (Ray.origin ray) (Ray.pointAt ray t0)))
               = t0).
  { rewrite Hw. apply sqrt_square. lra. }
  split; [exact Hs |].
  rewrite normalised_scale, Hs.
  destruct ray as [[ox oy oz] [dx dy dz]]. vec_simpl.
  apply vec3_eq; field; lra.
Qed.

Lemma viewDirection_reverses_unit_ray_witness :
  Vec3.normalised (Vec3.subtract (Ray.origin downRay) (Ray.pointAt downRay 2))
  = Vec3.scale (Ray.direction downRay) (-1).
Proof.
  apply (viewDirection_reverses_unit_ray downRay 2).
  - unfold downRay. vec_simpl. lra.
  - lra.
Defined.

(** ** traceRay over a longer scene *)

Lemma traceLoop_app (ray : Ray.t) (front back : list Sphere.t) (i : Z)
  (st : TraceState) :
  traceLoop ray (front ++ back) i st =
  traceLoop ray back (i + Z.of_nat (length front)) (traceLoop ray front i st).
Proof.
  revert i st. induction front as [| s front IH]; intros i st.
  - cbn. f_equal. lia.
  - cbn [app traceLoop length]. rewrite IH. f_equal. lia.
Qed.

Lemma traceLoop_unchanged (ray : Ray.t) (extra : list Sphere.t) (i : Z)
  (st : TraceState) :
  (forall s, In s extra ->
             ltb 0 (Sphere.rayIntersects s ray)
             && lt_num (Sphere.rayIntersects s ray) (st_t st) = false) ->
  traceLoop ray extra i st = st.
Proof.
  revert i. induction extra as [| s extra IH]; intros i Hall; [reflexivity |].
  cbn [traceLoop]. unfold traceStep. cbv zeta.
  rewrite (Hall s (or_introl eq_refl)). apply IH.
  intros s' Hs'. apply Hall. right. exact Hs'.
Qed.

(** X20.  Spheres added at the end of a scene that have no positive
    intersection value, or none below the [t] already found, leave the
    result of [traceRay] as it is: the same [t], index and normal. *)
Theorem traceRay_ignores_farther_spheres (scene extra : list Sphere.t)
  (ray : Ray.t) :
  ((forall s, In s extra -> Sphere.rayIntersects s ray <= 0) ->
   traceRay (scene ++ extra) ray = traceRay scene ray) /\
  (forall (tb : R) (i : Z) (n : Vec3.t),
      traceRay scene ray = mkCast (Fin tb) (Some i) (Some n) ->
      (forall s, In s extra ->
                 Sphere.rayIntersects s ray <= 0 \/
                 tb <= Sphere.rayIntersects s ray) ->
      traceRay (scene ++ extra) ray = mkCast (Fin tb) (Some i) (Some n)).
Proof.
  split.
  - intros Hall. unfold traceRay. cbv zeta. rewrite traceLoop_app.
    rewrite traceLoop_unchanged; [reflexivity |].
    intros s Hs. rewrite (ltb_ge 0 _ (Hall s Hs)). reflexivity.
  - intros tb i n Hres Hfar.
    rewrite <- Hres. unfold traceRay in *. cbv zeta in *.
    rewrite traceLoop_app.
    rewrite traceLoop_unchanged; [reflexivity |].
    intros s Hs.
    destruct (traceLoop ray scene 0 (mkState Infinity (-1) None))
      as [t0 idx nrm].
    cbn [closestSphereIndex st_t closestNormal] in *.
    destruct (idx <? 0)%Z; [discriminate Hres |].
    injection Hres as -> _ _. cbn [lt_num].
    destruct (Hfar s Hs) as [Hle | Hge].
    + rewrite (ltb_ge 0 _ Hle). reflexivity.
    + rewrite (ltb_ge _ _ Hge). apply andb_false_r.
Qed.

Lemma traceRay_ignores_farther_spheres_witness :
  traceRay ([twinSphere] ++ [farSphere]) forwardRay =
  traceRay [twinSphere] forwardRay.
Proof.
  assert (Hfar : Sphere.rayIntersects farSphere forwardRay = 4)
    by (by_root 2).
  assert (Hres : exists n, traceRay [twinSphere] forwardRay =
                           mkCast (Fin 2) (Some 0%Z) (Some n)).
  { unfold traceRay. cbn [traceLoop]. unfold traceStep. cbv zeta.
    rewrite rayIntersects_twin_forward, (ltb_lt 0 2) by lra.
    cbn. eexists. reflexivity. }
  destruct Hres as (n & Hres).
  destruct (traceRay_ignores_farther_spheres [twinSphere] [farSphere] forwardRay)
    as [_ Hhit].
  rewrite (Hhit 2 0%Z n Hres); [symmetry; exact Hres |].
  intros s [<- | []]. right. rewrite Hfar. lra.
Defined.

(** ** The camera rays and the order of the frame *)

(** X21.  For a pixel inside the frame, [renderPixel] shades the ray
    [cameraRay]: it starts at [(0, 0, 0)], its viewport coordinates [u]
    and [v] are in [[-1, 1)], its direction is a unit vector and points
    forward, with [z <= - 1 / sqrt 3]. *)
Theorem cameraRay_unit_forward (scene : list Sphere.t) (light : Vec3.t)
  (width height x y : Z) :
  (0 <= x < width)%Z -> (0 <= y < height)%Z ->
  let ray := cameraRay width height x y in
  let u := IZR x / IZR width * 2 - 2 / 2 in
  let v := IZR y / IZR height * 2 - 2 / 2 in
  renderPixel scene light width height x y =
  (color <- rayColor scene light ray ;;
   Some (mkPaint x y
           (Rmin 1 (Rmax 0 (Vec3.x color)) * 255)
           (Rmin 1 (Rmax 0 (Vec3.y color)) * 255)
           (Rmin 1 (Rmax 0 (Vec3.z color)) * 255))) /\
  -1 <= u < 1 /\ -1 <= v < 1 /\
  Ray.origin ray = Vec3.mk 0 0 0 /\
  Vec3.dot (Ray.direction ray) (Ray.direction ray) = 1 /\
  Vec3.z (Ray.direction ray) <= - / sqrt 3.
Proof.
  intros Hx Hy. cbv zeta.
  assert (Hfrac : forall a b : Z, (0 <= a < b)%Z -> 0 <= IZR a / IZR b < 1).
  { intros a b Hab.
    assert (Hb : 0 < IZR b) by (apply (IZR_lt 0); lia).
    assert (Ha : 0 <= IZR a) by (apply (IZR_le 0); lia).
    assert (Hlt : IZR a < IZR b) by (apply IZR_lt; lia).
    split.
    - apply Rmult_le_pos; [exact Ha | left; apply Rinv_0_lt_compat; exact Hb].
    - apply (Rmult_lt_reg_r (IZR b)); [exact Hb |].
      unfold Rdiv. rewrite Rmult_assoc, Rinv_l by lra. lra. }
  pose proof (Hfrac x width Hx) as Hu. pose proof (Hfrac y height Hy) as Hv.
  set (fx := IZR x / IZR width) in *. set (fy := IZR y / IZR height) in *.
  split; [reflexivity |].
  split; [lra |]. split; [lra |]. split; [reflexivity |].
  unfold cameraRay. cbn [Ray.direction]. fold fx fy.
  set (w := Vec3.mk (fx * 2 - 2 / 2) (- (fy * 2 - 2 / 2)) (- (1))).
  assert (Hsq : forall a : R, -1 <= a <= 1 -> 0 <= a * a <= 1)
    by (intros a Ha; nra).
  pose proof (Hsq (fx * 2 - 2 / 2) ltac:(lra)) as Hu2.
  pose proof (Hsq (- (fy * 2 - 2 / 2)) ltac:(lra)) as Hv2.
  assert (Hww : 1 <= Vec3.dot w w <= 3) by (unfold w; vec_simpl; lra).
  split; [apply normalised_unit; lra |].
  rewrite normalised_scale. unfold w at 1. cbn [Vec3.scale Vec3.z Vec3.x Vec3.y].
  assert (Hs3 : 0 < sqrt 3) by (apply sqrt_lt_R0; lra).
  assert (Hsw : 0 < sqrt (Vec3.dot w w)) by (apply sqrt_lt_R0; lra).
  assert (Hle : sqrt (Vec3.dot w w) <= sqrt 3) by (apply sqrt_le_1; lra).
  assert (Hinv : / sqrt 3 <= / sqrt (Vec3.dot w w))
    by (apply Rinv_le_contravar; assumption).
  lra.
Qed.

Lemma cameraRay_unit_forward_witness :
  Vec3.dot (Ray.direction (cameraRay 2 2 0 1))
           (Ray.direction (cameraRay 2 2 0 1)) = 1.
Proof.
  destruct (cameraRay_unit_forward spheres lightDirection 2 2 0 1)
    as (_ & _ & _ & _ & Hunit & _); [lia | lia |].
  exact Hunit.
Defined.

Lemma length_zrange (m : nat) (i : Z) : length (zrange i m) = m.
Proof. revert i. induction m as [| m IH]; intros i; cbn; [| rewrite IH]; reflexivity. Qed.

Lemma nth_error_zrange (m : nat) (i : Z) (j : nat) :
  (j < m)%nat -> nth_error (zrange i m) j = Some (i + Z.of_nat j)%Z.
Proof.
  revert i j. induction m as [| m IH]; intros i j Hj; [lia |].
  destruct j as [| j]; cbn [zrange nth_error].
  - f_equal. lia.
  - rewrite IH by lia. f_equal. lia.
Qed.

Lemma concat_singletons {A B : Type} (f : A -> B) (l : list A) :
  concat (map (fun a => [f a]) l) = map f l.
Proof. induction l as [| a l IH]; cbn; [| rewrite IH]; reflexivity. Qed.

Lemma length_concat_rows {A : Type} (rows : list (list A)) (w : nat) :
  (forall r, In r rows -> length r = w) ->
  length (concat rows) = (length rows * w)%nat.
Proof.
  induction rows as [| r rows IH]; intros Hw; cbn; [reflexivity |].
  rewrite length_app, (Hw r (or_introl eq_refl)), IH; [lia |].
  intros r' Hr'. apply Hw. right. exact Hr'.
Qed.

Lemma nth_error_concat_rows {A : Type} (rows : list (list A)) (w : nat) :
  (forall r, In r rows -> length r = w) ->
  forall (j i : nat) (r : list A),
    nth_error rows j = Some r -> (i < w)%nat ->
    nth_error (concat rows) (j * w + i) = nth_error r i.
Proof.
  induction rows as [| r0 rows IH]; intros Hw j i r Hj Hi.
  - destruct j; discriminate Hj.
  - pose proof (Hw r0 (or_introl eq_refl)) as H0.
    destruct j as [| j]; cbn [nth_error concat] in *.
    + injection Hj as <-. cbn. rewrite nth_error_app1 by lia. reflexivity.
    + rewrite nth_error_app2 by lia.
      replace (S j * w + i - length r0)%nat with (j * w + i)%nat by lia.
      apply IH; [| exact Hj | exact Hi].
      intros r' Hr'. apply Hw. right. exact Hr'.
Qed.

(** X22.  [render] paints [height * width] pixels in row-major order:
    the entry of index [y * width + x] is the pixel [(x, y)]. *)
Theorem render_row_major (scene : list Sphere.t) (light : Vec3.t)
  (width height : Z) :
  exists painted : list Paint,
    render scene light width height = Some painted /\
    length painted = (Z.to_nat height * Z.to_nat width)%nat /\
    (forall x y : Z, (0 <= x < width)%Z -> (0 <= y < height)%Z ->
       exists p : Paint,
         nth_error painted (Z.to_nat (y * width + x)) = Some p /\
         px p = x /\ py p = y /\
         renderPixel scene light width height x y = Some p).
Proof.
  exists (paintedFrame scene light width height).
  split; [apply render_frame |].
  unfold paintedFrame.
  assert (Hrow : forall y, paintedRow scene light width height y =
                           map (fun x => paintAt scene light width height x y)
                               (zrange 0 (Z.to_nat width))).
  { intros y. unfold paintedRow. apply concat_singletons. }
  assert (Hlen : forall r,
             In r (map (paintedRow scene light width height)
                       (zrange 0 (Z.to_nat height))) ->
             length r = Z.to_nat width).
  { intros r Hr. apply in_map_iff in Hr. destruct Hr as (y & <- & _).
    rewrite Hrow, length_map, length_zrange. reflexivity. }
  split.
  - rewrite (length_concat_rows _ _ Hlen), length_map, length_zrange.
    reflexivity.
  - intros x y Hx Hy.
    exists (paintAt scene light width height x y).
    split.
    + replace (Z.to_nat (y * width + x))
        with (Z.to_nat y * Z.to_nat width + Z.to_nat x)%nat by nia.
      rewrite (nth_error_concat_rows _ _ Hlen (Z.to_nat y) (Z.to_nat x)
                 (paintedRow scene light width height y)).
      * rewrite Hrow, nth_error_map, nth_error_zrange by lia.
        cbn. do 2 f_equal. lia.
      * rewrite nth_error_map, nth_error_zrange by lia.
        cbn. do 2 f_equal. lia.
      * lia.
    + pose proof (renderPixel_paintAt scene light width height x y) as Hp.
      destruct (renderPixel_some scene light width height x y) as (c & _ & Hc).
      rewrite Hc in Hp. injection Hp as Hp. rewrite <- Hp.
      cbn [px py]. repeat split. rewrite Hc. reflexivity.
Qed.

Lemma render_row_major_witness :
  exists (painted : list Paint) (p : Paint),
    render spheres lightDirection 2 2 = Some painted /\
    length painted = 4%nat /\
    nth_error painted 2 = Some p /\ px p = 0%Z /\ py p = 1%Z.
Proof.
  destruct (render_row_major spheres lightDirection 2 2)
    as (painted & Hr & Hlen & Hnth).
  destruct (Hnth 0%Z 1%Z) as (p & Hp & Hx & Hy & _); [lia | lia |].
  exists painted, p. repeat split; assumption.
Defined.

(** X23.  A pixel whose camera ray has no positive intersection value
    in the scene is painted with the background colour times [255],
    unclamped: red in [[76.5, 127.5]], green in [[76.5, 229.5]], blue in
    [[127.5, 255]]. *)
Theorem renderPixel_background (scene : list Sphere.t) (light : Vec3.t)
  (width height x y : Z) :
  (forall s, In s scene ->
             Sphere.rayIntersects s (cameraRay width height x y) <= 0) ->
  let c := backgroundColour (cameraRay width height x y) in
  exists p : Paint,
    renderPixel scene light width height x y = Some p /\
    px p = x /\ py p = y /\
    red p = Vec3.x c * 255 /\
    green p = Vec3.y c * 255 /\
    blue p = Vec3.z c * 255 /\
    76.5 <= red p <= 127.5 /\
    76.5 <= green p <= 229.5 /\
    127.5 <= blue p <= 255.
Proof.
  intros Hmiss. cbv zeta.
  pose proof (rayColor_miss scene light _ Hmiss) as Hc.
  pose proof (backgroundColour_bounds (cameraRay width height x y)) as Hb.
  cbv zeta in Hb.
  eexists. split.
  - unfold renderPixel. cbv zeta.
    change (Ray.mk (Vec3.mk 0 0 0) _) with (cameraRay width height x y).
    rewrite Hc. cbn [bind]. reflexivity.
  - cbn [px py red green blue].
    set (c := backgroundColour _) in *.
    rewrite !Rmax_right by lra. rewrite !Rmin_right by lra.
    repeat split; lra.
Qed.

Lemma renderPixel_background_witness :
  exists p : Paint,
    renderPixel spheres lightDirection 2 2 0 1 = Some p /\
    127.5 <= blue p <= 255.
Proof.
  destruct (renderPixel_background spheres lightDirection 2 2 0 1
              leftRay_misses)
    as (p & Hp & _ & _ & _ & _ & _ & _ & _ & Hb).
  exists p. split; [exact Hp | exact Hb].
Defined.

(** * The intersection routine where rounding decides *)

(** ** The same inputs over real numbers *)

(** The line of [besideRay] stays at distance [11] or more from the
    centre of the sphere of radius [10]: over real numbers it misses,
    and [rayIntersects] is [-1]. *)
Lemma besideRay_line_outside :
  (forall t0 : R,
      let p := Vec3.subtract (Ray.pointAt besideRay t0)
                             (Sphere.center distantSphere) in
      Sphere.radius distantSphere * Sphere.radius distantSphere
      < Vec3.dot p p) /\
  Sphere.rayIntersects distantSphere besideRay = -1.
Proof.
  assert (Hline : forall t0 : R,
             let p := Vec3.subtract (Ray.pointAt besideRay t0)
                                    (Sphere.center distantSphere) in
             Sphere.radius distantSphere * Sphere.radius distantSphere
             < Vec3.dot p p).
  { intros t0. unfold besideRay, distantSphere. vec_simpl.
    pose proof (Rle_0_sqr (0 + t0 * -1 - -1073741824)) as Hz.
    unfold Rsqr in Hz. lra. }
  split; [exact Hline |].
  apply rayIntersects_line_misses. exact Hline.
Qed.

Lemma aimedRay_forward : aimedRay = forwardRay.
Proof.
  unfold aimedRay, forwardRay, farSphere. f_equal.
  replace (Vec3.subtract
             (Sphere.center
                (Sphere.mk (Vec3.mk 0 0 (-5)) 1 (Vec3.mk 1 1 1)))
             (Vec3.mk 0 0 0))
    with (Vec3.scale (Vec3.mk 0 0 (-1)) 5)
    by (vec_simpl; apply vec3_eq; lra).
  rewrite normalised_scale.
  replace (Vec3.dot (Vec3.scale (Vec3.mk 0 0 (-1)) 5)
                    (Vec3.scale (Vec3.mk 0 0 (-1)) 5))
    with (5 * 5) by (vec_simpl; lra).
  rewrite sqrt_square by lra. vec_simpl. apply vec3_eq; field.
Qed.

(** A radius that is not positive: for the sphere of radius [-1] at
    distance [5], the ray aimed at the centre gets [4], and the distance
    minus the radius is [6]. *)
Lemma rayIntersects_inverseSphere :
  Sphere.rayIntersects inverseSphere aimedRay = 4 /\
  sqrt (Vec3.dot
          (Vec3.subtract (Sphere.center inverseSphere) (Ray.origin aimedRay))
          (Vec3.subtract (Sphere.center inverseSphere) (Ray.origin aimedRay)))
  - Sphere.radius inverseSphere = 6.
Proof.
  rewrite aimedRay_forward. split.
  - by_root 2.
  - unfold inverseSphere, forwardRay. vec_simpl.
    replace ((0 - 0) * (0 - 0) + (0 - 0) * (0 - 0) + (-5 - 0) * (-5 - 0))
      with (5 * 5) by lra.
    rewrite sqrt_square by lra. lra.
Qed.

(** ** On binary64 numbers *)

Module DoubleRuns.

Import PrimFloat.
Local Open Scope float_scope.

(** Against C7 as stated, on the numbers the program computes with.
    The ray [tinyRay] starts outside [tinySphere] and its unit
    direction points exactly at the centre, at distance [1000]; the
    routine returns [-1], not the distance minus the radius (more than
    [999]).  The line of [besideRay] misses [distantSphere] entirely
    (it stays [11] away from the centre of a sphere of radius [10],
    all inputs are whole numbers); the routine returns a hit, at more
    than [1073741812]. *)
Lemma rayIntersects_rounds_to_other_branch :
  (Double.subtract (Double.center Double.tinySphere)
                   (Double.origin Double.tinyRay)
   = Double.scale (Double.direction Double.tinyRay) 1000 /\
   Double.dot (Double.direction Double.tinyRay)
              (Double.direction Double.tinyRay) = 1 /\
   (Double.radius Double.tinySphere <? 1000) = true /\
   Double.rayIntersects Double.tinySphere Double.tinyRay = -1 /\
   (999 <? 1000 - Double.radius Double.tinySphere) = true)
  /\
  (Double.dot (Double.direction Double.besideRay)
              (Double.direction Double.besideRay) = 1 /\
   Double.x (Double.origin Double.besideRay)
   - Double.x (Double.center Double.distantSphere) = 11 /\
   Double.radius Double.distantSphere = 10 /\
   (1073741812 <? Double.rayIntersects Double.distantSphere Double.besideRay)
   = true).
Proof. vm_compute. repeat split. Qed.

End DoubleRuns.
